(** * The riot command line compiler driver (lib/index.js)

    A shallow embedding of [methods.make] and [methods.watch] together with
    the helpers nested in [make] ([encapsulate], [parse], [toFile], [toDir]).

    JavaScript strings are modelled as [string]; file contents are the UTF-8
    text [sh.cat] returns, so the byte-order mark U+FEFF is the three bytes
    EF BB BF.  The side effects of a build pass (reading files, creating
    directories, writing files, printing) are threaded through an explicit
    state-and-exception monad over a [World]; a thrown JavaScript exception
    keeps every effect already performed. *)

From Stdlib Require Import Ascii QArith.
From stdpp Require Import gmap strings list fin_maps pretty.

(** ** Exceptions and the effect monad *)

Inductive result (E A : Type) : Type :=
| Ok (a : A)
| Throw (e : E).
Arguments Ok {E A} a.
Arguments Throw {E A} e.

(** What a pass can throw.  The compiler's own error payload is opaque. *)
Inductive exn (CErr : Type) : Type :=
| InitError (msg : string)        (* thrown by [init] *)
| CompileError (e : CErr)         (* thrown by [compiler.compile] *)
| NoSuchFile (p : string)         (* [sh.cat] on a path that is not a file *)
| NoSuchDir (d : string)          (* [.to(path)] when the parent directory is missing *)
| WrongArguments                  (* [.to(undefined)] *)
| TypeError.                      (* a method called on [undefined] *)
Arguments InitError {CErr} msg.
Arguments CompileError {CErr} e.
Arguments NoSuchFile {CErr} p.
Arguments NoSuchDir {CErr} d.
Arguments WrongArguments {CErr}.
Arguments TypeError {CErr}.

(** The part of the outside world a build pass touches. *)
Record World : Type := mkWorld {
  files : gmap string string;     (* regular files: path -> text *)
  dirs  : gset string;            (* existing directories *)
  out   : list string             (* lines printed through [log], oldest first *)
}.

Definition set_files (m : gmap string string) (w : World) : World :=
  {| files := m; dirs := dirs w; out := out w |}.
Definition set_dirs (d : gset string) (w : World) : World :=
  {| files := files w; dirs := d; out := out w |}.
Definition set_out (l : list string) (w : World) : World :=
  {| files := files w; dirs := dirs w; out := l |}.

Definition M (E A : Type) : Type := World → result E A * World.

Definition ret {E A} (a : A) : M E A := λ w, (Ok a, w).
Definition throw {E A} (e : E) : M E A := λ w, (Throw e, w).
Definition bind {E A B} (m : M E A) (k : A → M E B) : M E B :=
  λ w, match m w with
       | (Ok a, w') => k a w'
       | (Throw e, w') => (Throw e, w')
       end.

Declare Scope js_scope.
Delimit Scope js_scope with js.
Notation "'let!' x := m 'in' k" := (bind m (λ x, k))
  (at level 10, x name, m at level 100, k at level 200) : js_scope.
Notation "m ;; k" := (bind m (λ _, k))
  (at level 100, k at level 200, right associativity) : js_scope.
Local Open Scope js_scope.

(** [Array.prototype.map] with a callback that has effects and may throw:
    the elements are visited left to right and the first exception leaves
    the loop.  The callback also receives the index. *)
Fixpoint mapM_from {E A B} (f : A → nat → M E B) (i : nat) (l : list A) : M E (list B) :=
  match l with
  | [] => ret []
  | x :: l' =>
      let! y := f x i in
      let! ys := mapM_from f (S i) l' in
      ret (y :: ys)
  end.

Definition mapM {E A B} (f : A → nat → M E B) (l : list A) : M E (list B) :=
  mapM_from f 0 l.

(** ** Options *)

(** The [opt.compiler] bag handed to the compiler as it is. *)
Record CompilerOptions : Type := mkCompilerOptions {
  compact    : bool;
  template   : option string;
  type       : option string;
  brackets   : option string;
  expr       : bool;
  modular    : bool;
  silent     : bool;
  whitespace : bool
}.

(** The [opt] object.  [flow] is the two letter string [init] stores:
    ['f'] or another letter for the source, then the same for the target.
    An absent target is falsy in JavaScript and is written [""] here. *)
Record Opt : Type := mkOpt {
  compiler : CompilerOptions;
  ext      : string;
  from     : string;
  to       : string;
  flow     : string
}.

(** [opt.flow[i] == 'f'] *)
Definition flow_is_f (i : nat) (opt : Opt) : bool :=
  match String.get i (flow opt) with
  | Some c => bool_decide (c = "f"%char)
  | None => false
  end.

(** ** Text helpers *)

Definition nl : string := String "010"%char "".

(** U+FEFF as [sh.cat] delivers it. *)
Definition BOM : string := String "239"%char (String "187"%char (String "191"%char "")).

(** [s.replace(/^\uFEFF/g, '')]: the pattern is anchored at the start of
    the text, so at most one occurrence matches. *)
Definition strip_BOM (s : string) : string :=
  match s with
  | String "239"%char (String "187"%char (String "191"%char rest)) => rest
  | _ => s
  end.

(** [list.join('\n')] *)
Definition join_nl (l : list string) : string := String.concat nl l.

(** The text put before and after the compiled code by [encapsulate], built
    with the same sequence of [out += ...]. *)
Definition shim_head : string :=
  "" +:+ ("(function(tagger) {" +:+ nl)
     +:+ ("  if (typeof define === 'function' && define.amd) {" +:+ nl)
     +:+ ("    define(function(require, exports, module) { tagger(require('riot'), require, exports, module)})" +:+ nl)
     +:+ ("  } else if (typeof module !== 'undefined' && typeof module.exports !== 'undefined') {" +:+ nl)
     +:+ ("    tagger(require('riot'), require, exports, module)" +:+ nl)
     +:+ ("  } else {" +:+ nl)
     +:+ ("    tagger(window.riot)" +:+ nl)
     +:+ ("  }" +:+ nl)
     +:+ ("})(function(riot, require, exports, module) {" +:+ nl).

Definition shim_tail : string := nl +:+ "});".

Definition encapsulate (opt : Opt) (from : string) : string :=
  if negb (modular (compiler opt)) then from
  else shim_head +:+ from +:+ shim_tail.

(** A bracket matcher for the wrapper: an opening bracket pushes the
    closing one it waits for, and a closing bracket must be the one on top
    of the stack.  [None] is a mismatch; the stack left over lists what is
    still to be closed, innermost first. *)
Definition closer_of (c : ascii) : option ascii :=
  if bool_decide (c = "("%char) then Some ")"%char
  else if bool_decide (c = "{"%char) then Some "}"%char
  else if bool_decide (c = "["%char) then Some "]"%char
  else None.

Definition is_closer (c : ascii) : bool :=
  bool_decide (c = ")"%char) || bool_decide (c = "}"%char) || bool_decide (c = "]"%char).

Fixpoint scan (s : string) (stack : list ascii) : option (list ascii) :=
  match s with
  | "" => Some stack
  | String c s' =>
      match closer_of c with
      | Some k => scan s' (k :: stack)
      | None =>
          if is_closer c then
            match stack with
            | k :: stack' => if bool_decide (k = c) then scan s' stack' else None
            | [] => None
            end
          else scan s' stack
      end
  end.

Definition balanced (s : string) : bool :=
  match scan s [] with
  | Some [] => true
  | _ => false
  end.

(** ** The watcher's events *)

(** What the file system watcher sees for a glob: the files met by its
    first scan, the end of that scan, and the changes after it. *)
Inductive FsEvent : Type :=
| InitialAdd (p : string)
| Ready
| Change (p : string).

(** The listeners an event reaches. *)
Inductive Emit : Type := EmitReady | EmitAll.

(** [chokidar.watch(glob, { ignoreInitial })]: with [ignoreInitial] the
    files of the first scan are not announced. *)
Definition chokidar_emit (ignoreInitial : bool) (ev : FsEvent) : option Emit :=
  match ev with
  | InitialAdd _ => if ignoreInitial then None else Some EmitAll
  | Ready => Some EmitReady
  | Change _ => Some EmitAll
  end.

(** ** The analyzer's results and the command line *)

(** One entry of what the analyzer returns for a text; [error] is absent
    where there is nothing to complain about. *)
Record AnalyzerResult : Type := mkAnalyzerResult {
  line   : Z;
  source : string;
  error  : option string
}.

(** A string, or [undefined], used as a condition. *)
Definition truthy (s : option string) : bool :=
  match s with
  | Some (String _ _) => true
  | _ => false
  end.

(** [s + x] for an [x] that may be [undefined]. *)
Definition or_undefined (x : option string) : string :=
  match x with
  | Some s => s
  | None => "undefined"
  end.

(** A number as [minimist] makes one of an argument that looks like a
    number: its value, or one of the two infinities a too large exponent
    gives.  The argument cannot come out as not-a-number. *)
Inductive JsNumber : Type :=
| Finite (q : Q)
| Infinite (negative : bool).

(** An element of [args._]: the argument as it was typed, or the number
    [minimist] read in it. *)
Inductive ArgValue : Type :=
| ArgString (s : string)
| ArgNumber (n : JsNumber).

(** A text, a number or [undefined] used as a condition: the empty text,
    zero and [undefined] do not hold. *)
Definition truthy_value (v : option ArgValue) : bool :=
  match v with
  | Some (ArgString (String _ _)) => true
  | Some (ArgNumber (Finite q)) => negb (Qeq_bool q 0)
  | Some (ArgNumber (Infinite _)) => true
  | _ => false
  end.

(** The [args] object as [minimist] returns it.  The five [arg_] flags
    named after the methods say whether [args[v]] holds for that name;
    the options that take a text are given one or left out;
    [arg_positional] is [args._]. *)
Record Args : Type := mkArgs {
  arg_help       : bool;
  arg_version    : bool;
  arg_make       : bool;
  arg_watch      : bool;
  arg_check      : bool;
  arg_compact    : bool;
  arg_whitespace : bool;
  arg_modular    : bool;
  arg_silent     : bool;
  arg_expr       : bool;
  arg_template   : option string;
  arg_type       : option string;
  arg_brackets   : option string;
  arg_ext        : option string;
  arg_positional : list ArgValue
}.

(** [Object.keys(methods)] *)
Definition method_keys : list string := ["help"; "version"; "make"; "watch"; "check"].

(** [args[v]] as a condition. *)
Definition arg_flag (args : Args) (v : string) : bool :=
  if bool_decide (v = "help") then arg_help args
  else if bool_decide (v = "version") then arg_version args
  else if bool_decide (v = "make") then arg_make args
  else if bool_decide (v = "watch") then arg_watch args
  else if bool_decide (v = "check") then arg_check args
  else false.

(** [opts.from] and [opts.to] as a path: the text given, the empty text
    for [undefined]; a number is no path and has no place in [Opt]. *)
Definition path_of (v : option ArgValue) : option string :=
  match v with
  | Some (ArgString s) => Some s
  | Some (ArgNumber _) => None
  | None => Some ""
  end.

(** The options hash [cli] builds, when its two paths are texts.  What is
    [undefined] there is the empty text here; [flow] is not set before
    [init]. *)
Definition opts_of (args : Args) : option Opt :=
  match path_of (arg_positional args !! 0), path_of (arg_positional args !! 1) with
  | Some from', Some to' =>
      Some {| compiler := {| compact := arg_compact args;
                             template := arg_template args;
                             type := arg_type args;
                             brackets := arg_brackets args;
                             expr := arg_expr args;
                             modular := arg_modular args;
                             silent := arg_silent args;
                             whitespace := arg_whitespace args |};
              ext := default "" (arg_ext args);
              from := from';
              to := to';
              flow := "" |}
  | _, _ => None
  end.

(** The name of the method [cli] calls; [opts.from] is the first element
    of [args._]. *)
Definition method_of (args : Args) : string :=
  match List.filter (arg_flag args) method_keys with
  | v :: _ => v
  | [] => if truthy_value (arg_positional args !! 0) then "make" else "help"
  end.

(** The text [help] prints. *)
Definition help_text : string :=
  String.concat nl [
    "";
    "Builds .tag files to .js";
    "";
    "Options:";
    "";
    "  -h, --help      You're reading it";
    "  -v, --version   Print Riot's version";
    "  -w, --watch     Watch for changes";
    "  -c, --compact   Minify </p> <p> to </p><p>";
    "  -t, --type      JavaScript pre-processor. Built-in support for: es6, coffeescript, typescript, livescript, none";
    "  -m, --modular   AMD and CommonJS";
    "  -s, --silent    Silence build output";
    "  --template      HTML pre-processor. Built-in support for: jade";
    "  --whitespace    Preserve newlines and whitepace";
    "  --brackets      Change brackets used for expressions. Defaults to { }";
    "  --expr          Run expressions trough parser defined with --type";
    "  --ext           Change tag file extension. Defaults to .tag";
    "";
    "Build a single .tag file:";
    "";
    "  riot foo.tag           To a same named file (foo.js)";
    "  riot foo.tag bar.js    To a different named file (bar.js)";
    "  riot foo.tag bar       To a different dir (bar/foo.js)";
    "";
    "Build all .tag files in a directory:";
    "";
    "  riot foo/bar           To a same directory (foo/**/*.js)";
    "  riot foo/bar baz       To a different directory (baz/**/*.js)";
    "  riot foo/bar baz.js    To a single concatenated file (baz.js)";
    "";
    "Examples for options:";
    "";
    "  riot foo bar";
    "  riot --w foo bar";
    "  riot --watch foo bar";
    "  riot --compact foo bar";
    "  riot foo bar --compact";
    "  riot test.tag --type coffeescript --expr";
    ""
  ].

(** ** A small installation to run the definitions on

    A compiler that rejects the text [bad] and brackets any other text,
    POSIX flavoured path helpers, and a source directory [src] with two
    tag files, the second one starting with a byte-order mark. *)

Definition demo_compile (text : string) (o : CompilerOptions) : result string string :=
  if bool_decide (text = "bad") then Throw "unexpected token"
  else Ok ("<" +:+ text +:+ ">").

Definition demo_init (w : World) (opt : Opt) : result string Opt := Ok opt.

Definition demo_find (w : World) (dir : string) : list string :=
  if bool_decide (dir = "src") then ["src/a.tag"; "src/b.tag"] else [].

Definition demo_mirror (to' base from' : string) : string :=
  to' +:+ String.substring (String.length base) (String.length from' - String.length base - 4) from' +:+ ".js".

Fixpoint before_last_slash (s : string) : option string :=
  match s with
  | "" => None
  | String c s' =>
      match before_last_slash s' with
      | Some d => Some (String c d)
      | None => if bool_decide (c = "/"%char) then Some "" else None
      end
  end.

Definition demo_dirname (p : string) : string :=
  match before_last_slash p with
  | Some "" => "/"
  | Some d => d
  | None => "."
  end.

Definition demo_ancestors (d : string) : list string := [].

Definition demo_toRelative (p : string) : string := p.

Definition demo_join (a b : string) : string := a +:+ "/" +:+ b.

Definition demo_options (m s : bool) : CompilerOptions :=
  {| compact := false; template := None; type := None; brackets := None;
     expr := false; modular := m; silent := s; whitespace := false |}.

Definition demo_opt (m s : bool) (from' to' flow' : string) : Opt :=
  {| compiler := demo_options m s; ext := "tag"; from := from'; to := to'; flow := flow' |}.

Definition demo_world : World :=
  {| files := <["src/a.tag" := "A"]> (<["src/b.tag" := BOM +:+ "B"]> ∅);
     dirs := {["src"]};
     out := [] |}.

(** An analyzer that finds a fault on the second line of the text [bad]
    and none anywhere else; several files are put together with a newline
    between them; the colours are left out. *)
Definition demo_analyzer (text : string) : list AnalyzerResult :=
  if bool_decide (text = "bad")
  then [ {| line := 1; source := "<p>"; error := None |};
         {| line := 2; source := "bad"; error := Some "unexpected token" |} ]
  else [ {| line := 1; source := text; error := None |} ].

Definition demo_glue (texts : list string) : string := String.concat nl texts.

Definition demo_colour (s : string) : string := s.

Definition demo_version : string := "2.3.0".

Definition demo_args (h v wa ch : bool) (positional : list ArgValue) : Args :=
  {| arg_help := h; arg_version := v; arg_make := false; arg_watch := wa;
     arg_check := ch; arg_compact := false; arg_whitespace := false;
     arg_modular := false; arg_silent := false; arg_expr := false;
     arg_template := None; arg_type := None; arg_brackets := None;
     arg_ext := None; arg_positional := positional |}.

(** An [init] in the manner of the command line: the source is a file when
    its name ends in [.tag], the target is one file when its name ends in
    [.js], and a missing target is the source (or its directory). *)
Definition ends_with (suffix s : string) : bool :=
  bool_decide (String.substring (String.length s - String.length suffix)
                                (String.length suffix) s = suffix).

Definition demo_cli_init (w : World) (opt : Opt) : result string Opt :=
  let single := ends_with ".tag" (from opt) in
  let to' := match to opt with
             | "" => if single then demo_dirname (from opt) else from opt
             | t => t
             end in
  Ok {| compiler := compiler opt;
        ext := match ext opt with "" => "tag" | e => e end;
        from := from opt;
        to := to';
        flow := (if single then "f" else "d") +:+ (if ends_with ".js" to' then "f" else "d") |}.

(** ** The build pass *)

Section Build.

(** The collaborators [lib/index.js] calls but does not define:
    - [compile text options] is [compiler.compile], a function of its
      arguments that returns the compiled text or throws;
    - [init w opt] is [opt] as [init(opt)] leaves it in the world [w], or
      the message of the error it throws;
    - [find w dir] lists the tag files found below [dir] in [w];
    - [mirror to base from] is the output path [remap] gives to one input;
    - [toRelative] shortens a path for display;
    - [dirname] is [ph.dirname], and [ancestors d] are the directories
      above [d] that [mkdir -p] creates on the way. *)
Context {CErr : Type}.
Variable compile : string → CompilerOptions → result CErr string.
Variable init : World → Opt → result string Opt.
Variable find : World → string → list string.
Variable mirror : string → string → string → string.
Variable toRelative : string → string.
Variable dirname : string → string.
Variable ancestors : string → list string.

Abbreviation JS := (M (exn CErr)).

(** [init(opt)]: classifies the arguments and stores the result in [opt];
    it looks at the file system but changes nothing there. *)
Definition init_ (opt : Opt) : JS Opt :=
  λ w, match init w opt with
       | Ok opt' => (Ok opt', w)
       | Throw msg => (Throw (InitError msg), w)
       end.

(** [find(dir)]: the tag files below [dir], in the order they are met. *)
Definition sh_find (dir : string) : JS (list string) :=
  λ w, (Ok (find w dir), w).

(** [sh.cat(path)] *)
Definition sh_cat (path : string) : JS string :=
  λ w, match files w !! path with
       | Some text => (Ok text, w)
       | None => (Throw (NoSuchFile path), w)
       end.

(** [compiler.compile(text, opt.compiler)] *)
Definition compile_ (text : string) (o : CompilerOptions) : JS string :=
  λ w, match compile text o with
       | Ok js => (Ok js, w)
       | Throw e => (Throw (CompileError e), w)
       end.

(** [sh.mkdir('-p', ds)]: every directory of [ds] exists afterwards,
    with the directories above it; existing ones are left alone. *)
Definition sh_mkdir_p (ds : list string) : JS unit :=
  λ w, (Ok tt, set_dirs (dirs w ∪ list_to_set (ds ++ (ds ≫= ancestors))) w).

(** [text.to(path)]: replaces the file; its directory has to exist. *)
Definition sh_to (text : string) (path : option string) : JS unit :=
  λ w, match path with
       | None => (Throw WrongArguments, w)
       | Some p =>
           if bool_decide (dirname p ∈ dirs w)
           then (Ok tt, set_files (<[p := text]> (files w)) w)
           else (Throw (NoSuchDir (dirname p)), w)
       end.

(** Modelled from the spec: [log] is not in this file; it is the sink the
    report lines of a pass go to, one line per call. *)
Definition log (line : string) : JS unit :=
  λ w, (Ok tt, set_out (out w ++ [line]) w).

(** Modelled from the spec: [remap] is not in this file; each input gets
    the target directory joined with its path relative to [base], the
    extension replaced ([mirror]). *)
Definition remap (from' : list string) (to' base : string) : list string :=
  map (mirror to' base) from'.

(** [to[i] || to[0]] *)
Definition or_first (to' : list string) (i : nat) : option string :=
  match to' !! i with
  | Some (String c s) => Some (String c s)
  | _ => to' !! 0
  end.

(** [toRelative(p)] for a [p] that may be [undefined]. *)
Definition toRelative_ (p : option string) : JS string :=
  match p with
  | Some p => ret (toRelative p)
  | None => throw TypeError
  end.

Definition parse (opt : Opt) (from' : string) : JS string :=
  let! text := sh_cat from' in
  compile_ (strip_BOM text) (compiler opt).

Definition toFile (opt : Opt) (from' to' : list string) : JS unit :=
  let! js := mapM (λ path _, parse opt path) from' in
  sh_to (encapsulate opt (join_nl js)) (to' !! 0).

Definition toDir (opt : Opt) (from' to' : list string) : JS unit :=
  mapM (λ from' i, let! js := parse opt from' in
                   sh_to (encapsulate opt js) (to' !! i)) from' ;;
  ret tt.

(** The keys of the [dirs] object filled by [dirs[ph.dirname(f)] = 0]. *)
Definition dirs_of (to' : list string) : gmap string nat :=
  foldl (λ d f, <[dirname f := 0]> d) ∅ to'.

Definition report (from' to' : list string) : JS unit :=
  mapM (λ src i, let! a := ret (toRelative src) in
                 let! b := toRelative_ (or_first to' i) in
                 log (a +:+ " -> " +:+ b)) from' ;;
  ret tt.

(** [methods.make(opt)].  The value returned is [opt] as the call leaves
    it, since [init] writes into the caller's object. *)
Definition make (opt : Opt) : JS Opt :=
  let! opt := init_ opt in
  let! from' := (if flow_is_f 0 opt then ret [from opt] else sh_find (from opt)) in
  let base := if flow_is_f 0 opt then dirname (from opt) else from opt in
  let to' := if flow_is_f 1 opt then [to opt] else remap from' (to opt) base in
  let dirs' := dirs_of to' in
  sh_mkdir_p (map fst (map_to_list dirs')) ;;
  (if flow_is_f 1 opt then toFile else toDir) opt from' to' ;;
  (if negb (silent (compiler opt)) then report from' to' else ret tt) ;;
  ret opt.

(** The callbacks registered on the watcher, run on the events it emits.
    An exception leaving a callback is not caught anywhere. *)
Fixpoint deliver (glob : string) (evs : list FsEvent) (opt : Opt) : JS Opt :=
  match evs with
  | [] => ret opt
  | ev :: evs' =>
      let! opt := match chokidar_emit true ev with
                  | None => ret opt
                  | Some EmitReady => log ("Watching " +:+ toRelative glob) ;; ret opt
                  | Some EmitAll => make opt
                  end in
      deliver glob evs' opt
  end.

Section Watching.

(** [ph.join] *)
Variable join : string → string → string.

(** [methods.watch(opt)]; [stream glob] is what the file system does to
    the files of [glob] while the process lives. *)
Definition watch (opt : Opt) (stream : string → list FsEvent) : JS Opt :=
  let! opt := init_ opt in
  let! opt := make opt in
  let glob := if flow_is_f 0 opt then from opt
              else join (from opt) ("**/*." +:+ ext opt) in
  deliver glob (stream glob) opt.

(** The glob [watch] subscribes to. *)
Definition glob_of (opt : Opt) : string :=
  if flow_is_f 0 opt then from opt else join (from opt) ("**/*." +:+ ext opt).

End Watching.

(** [n] passes one after the other on the same [opt] object. *)
Fixpoint passes (n : nat) (opt : Opt) : JS Opt :=
  match n with
  | 0 => ret opt
  | S n' => let! opt := make opt in passes n' opt
  end.

(** The names [make] gives to its lists, as functions of the classified
    options and of the world the pass starts in. *)
Definition inputs (opt : Opt) (w : World) : list string :=
  if flow_is_f 0 opt then [from opt] else find w (from opt).

Definition base_of (opt : Opt) : string :=
  if flow_is_f 0 opt then dirname (from opt) else from opt.

Definition outputs (opt : Opt) (w : World) : list string :=
  if flow_is_f 1 opt then [to opt] else remap (inputs opt w) (to opt) (base_of opt).

(** The path shown to the right of an input in the report. *)
Definition output_of (opt : Opt) (src : string) : string :=
  if flow_is_f 1 opt then to opt else mirror (to opt) (base_of opt) src.

Definition report_line (opt : Opt) (src : string) : string :=
  toRelative src +:+ " -> " +:+ toRelative (output_of opt src).

(** What [parse] returns for a path in a given world. *)
Definition compiled (opt : Opt) (w : World) (path : string) : result (exn CErr) string :=
  (parse opt path w).1.

(** The world once the directories of the outputs have been created. *)
Definition with_dirs (opt : Opt) (w : World) : World :=
  (sh_mkdir_p (map fst (map_to_list (dirs_of (outputs opt w)))) w).2.

(** The steps of [make] after the directories are there. *)
Definition process (opt : Opt) (from' to' : list string) : JS unit :=
  (if flow_is_f 1 opt then toFile else toDir) opt from' to'.

Definition finish (opt : Opt) (from' to' : list string) : JS Opt :=
  (if negb (silent (compiler opt)) then report from' to' else ret tt) ;;
  ret opt.

(** One turn of the loop of [toDir] for an input whose output is [g path]. *)
Definition write_one (opt : Opt) (g : string → string) (path : string) : JS unit :=
  let! js := parse opt path in
  sh_to (encapsulate opt js) (Some (g path)).

(** The files after the loop of [toDir] has gone through the inputs [ps],
    whose compiled texts are [js]. *)
Definition written (opt : Opt) (g : string → string) (m : gmap string string)
    (ps js : list string) : gmap string string :=
  foldl (λ m pj, <[g pj.1 := encapsulate opt pj.2]> m) m (zip ps js).

(** How the worlds of two runs of the loop of [toDir] are related, the
    first started on the files [F0], the second on the files [F1] the first
    one left: on the paths [D] written so far the two agree, elsewhere each
    still has what it started with. *)
Definition agree (F0 F1 : gmap string string) (D : gset string) (s1 s2 : World) : Prop :=
  (∀ p, p ∈ D → files s2 !! p = files s1 !! p)
  ∧ (∀ p, p ∉ D → files s2 !! p = F1 !! p ∧ files s1 !! p = F0 !! p).

Section Checking.

(** What [check] needs besides: the analyzer, the way [sh.cat] puts the
    texts of several files together, and the four colours of [chalk]. *)
Variable analyzer : string → list AnalyzerResult.
Variable glue : list string → string.
Variable white_bgRed : string → string.
Variable gray : string → string.
Variable red : string → string.
Variable green : string → string.

(** [sh.cat(paths)] for an array of paths. *)
Definition sh_cat_all (paths : list string) : JS string :=
  let! texts := mapM (λ path _, sh_cat path) paths in
  ret (glue texts).

(** The two lines printed for one fault. *)
Definition complain (result : AnalyzerResult) : JS unit :=
  log (gray (pretty (line result) +:+ "| ") +:+ source result) ;;
  log (red ("^^^ " +:+ or_undefined (error result))).

(** [methods.check(opt)] *)
Definition check (opt : Opt) : JS Opt :=
  let! opt := init_ opt in
  let! from' := (if flow_is_f 0 opt then ret [from opt] else sh_find (from opt)) in
  let! text := sh_cat_all from' in
  let source' := strip_BOM text in
  let errors := List.filter (λ result, truthy (error result)) (analyzer source') in
  (if negb (Nat.eqb (length errors) 0) then
     log (white_bgRed " Riot Tag Syntax Error ") ;;
     mapM (λ result _, complain result) errors ;;
     log (gray ("Total error: " +:+ pretty (length errors)))
   else
     log (green "No syntax error. Ready to compile :)")) ;;
  ret opt.

(** The faults [check] reports for the files [paths] holding [texts]. *)
Definition faults (texts : list string) : list AnalyzerResult :=
  List.filter (λ result, truthy (error result)) (analyzer (strip_BOM (glue texts))).

Definition complaint (result : AnalyzerResult) : list string :=
  [gray (pretty (line result) +:+ "| ") +:+ source result;
   red ("^^^ " +:+ or_undefined (error result))].

Section Cli.

(** The [version] of [package.json], and [ph.join] for [watch].
    [on_number method args stream] is what [make], [watch] or [check] does
    when [opts.from] or [opts.to] is a number: that is for [init] to say,
    which reads them first and is not in this file. *)
Variable version_string : string.
Variable join : string → string → string.
Variable on_number : string → Args → (string → list FsEvent) → JS unit.

(** [methods.help()] *)
Definition help : JS unit := log help_text.

(** [methods.version()] *)
Definition version : JS unit := log version_string.

(** [methods[method](opts)]; [help] and [version] do not look at [opts];
    a name that is no method gives [undefined], which cannot be called. *)
Definition call_method (method : string) (opts : option Opt) (args : Args)
    (stream : string → list FsEvent) : JS unit :=
  if bool_decide (method = "help") then help
  else if bool_decide (method = "version") then version
  else if bool_decide (method = "make") then
    match opts with
    | Some opts => make opts ;; ret tt
    | None => on_number "make" args stream
    end
  else if bool_decide (method = "watch") then
    match opts with
    | Some opts => watch join opts stream ;; ret tt
    | None => on_number "watch" args stream
    end
  else if bool_decide (method = "check") then
    match opts with
    | Some opts => check opts ;; ret tt
    | None => on_number "check" args stream
    end
  else throw TypeError.

(** [cli()], once [minimist] has read the command line. *)
Definition cli (args : Args) (stream : string → list FsEvent) : JS unit :=
  let opts := opts_of args in
  let method := method_of args in
  call_method method opts args stream.

End Cli.

End Checking.

(** The errors a pass can end with. *)
Definition pass_error (opt : Opt) (w : World) (e : exn CErr) : Prop :=
  match e with
  | InitError msg => init w opt = Throw msg
  | CompileError _ => True
  | NoSuchFile p => ∃ o, init w opt = Ok o ∧ p ∈ inputs o w
  | _ => False
  end.

(** ** Facts about texts *)

Lemma append_cons (c : ascii) (a b : string) : String c a +:+ b = String c (a +:+ b).
Proof. reflexivity. Qed.

Lemma append_assoc (a b c : string) : (a +:+ b) +:+ c = a +:+ (b +:+ c).
Proof.
  induction a as [|x a IH]; [done|].
  rewrite !append_cons. by rewrite IH.
Qed.

Lemma scan_app (a b : string) (st : list ascii) :
  scan (a +:+ b) st = scan a st ≫= scan b.
Proof.
  revert st. induction a as [|c a IH]; intros st; [done|].
  rewrite append_cons. simpl.
  destruct (closer_of c); [apply IH|].
  destruct (is_closer c); [|apply IH].
  destruct st as [|k st]; [done|].
  case_bool_decide; [apply IH | done].
Qed.

Lemma scan_frame (s : string) (st st' rest : list ascii) :
  scan s st = Some st' → scan s (st ++ rest) = Some (st' ++ rest).
Proof.
  revert st. induction s as [|c s IH]; intros st; simpl.
  - by intros [= ->].
  - destruct (closer_of c) as [k|].
    + intros H. by apply (IH (k :: st)).
    + destruct (is_closer c); [|apply IH].
      destruct st as [|k st]; [done|]. simpl.
      case_bool_decide; [apply IH | done].
Qed.

Lemma scan_shim_head : scan shim_head [] = Some ["}"%char; ")"%char].
Proof. by vm_compute. Qed.

Lemma scan_shim_tail : scan shim_tail ["}"%char; ")"%char] = Some [].
Proof. by vm_compute. Qed.

Lemma balanced_scan (s : string) : balanced s = true ↔ scan s [] = Some [].
Proof.
  unfold balanced. destruct (scan s []) as [[|]|]; split; intros; congruence.
Qed.

(** C3. [encapsulate] leaves the text alone when module packaging is off;
    when it is on, the result is the text between [shim_head] and
    [shim_tail], what the head leaves open is closed by the tail in the
    right order, and bracket-balanced text gives
    bracket-balanced output. *)
Theorem encapsulate_roundtrip (opt : Opt) (text : string) :
  match modular (compiler opt) with
  | false => encapsulate opt text = text
  | true =>
      encapsulate opt text = shim_head +:+ text +:+ shim_tail
      ∧ (∃ still_open, scan shim_head [] = Some still_open
                       ∧ scan shim_tail still_open = Some [])
      ∧ (balanced text = true → balanced (encapsulate opt text) = true)
  end.
Proof.
  unfold encapsulate. destruct (modular (compiler opt)); simpl; [|done].
  split_and!; [done|..].
  - eexists. split; [apply scan_shim_head | apply scan_shim_tail].
  - rewrite !balanced_scan. intros Htext.
    rewrite scan_app, scan_shim_head. simpl. rewrite scan_app.
    pose proof (scan_frame text [] [] ["}"%char; ")"%char] Htext) as Hframe.
    simpl in Hframe. rewrite Hframe. simpl. apply scan_shim_tail.
Qed.

(** ** Facts about the monad and the primitives *)

Lemma bind_run {E A B} (m : M E A) (k : A → M E B) (w : World) :
  bind m k w = match m w with
               | (Ok a, w') => k a w'
               | (Throw e, w') => (Throw e, w')
               end.
Proof. reflexivity. Qed.

Lemma parse_world (opt : Opt) (path : string) (w : World) :
  parse opt path w = (compiled opt w path, w).
Proof.
  unfold compiled, parse, bind, sh_cat, compile_.
  destruct (files w !! path); [|done].
  by destruct (compile _ _).
Qed.

Lemma compiled_files (opt : Opt) (w1 w2 : World) (path : string) :
  files w1 !! path = files w2 !! path → compiled opt w1 path = compiled opt w2 path.
Proof.
  unfold compiled, parse, bind, sh_cat, compile_. intros ->.
  destruct (files w2 !! path); [|done].
  by destruct (compile _ _).
Qed.

Lemma strip_BOM_BOM (t : string) : strip_BOM (BOM +:+ t) = t.
Proof. reflexivity. Qed.

(** Only the first mark goes: a second one reaches the compiler. *)
Lemma strip_BOM_once (t : string) : strip_BOM (BOM +:+ BOM +:+ t) = BOM +:+ t.
Proof. reflexivity. Qed.

(** C6. A file whose text is a byte-order mark followed by [t] is handed to
    the compiler as [t] (one mark is taken off, whatever [t] starts with),
    so [parse] returns what the compiler returns for [t]; and when [t]
    itself is left alone by the stripping, a file holding just [t] gives
    the same result. *)
Theorem parse_strips_BOM (opt : Opt) (path t : string) (w : World) :
  files w !! path = Some (BOM +:+ t) →
  parse opt path w = compile_ t (compiler opt) w
  ∧ ∀ w0, files w0 !! path = Some t → strip_BOM t = t →
          (parse opt path w0).1 = (parse opt path w).1.
Proof.
  intros Hf.
  assert (parse opt path w = compile_ t (compiler opt) w) as Hp.
  { unfold parse, bind, sh_cat. rewrite Hf. by rewrite strip_BOM_BOM. }
  split; [done|]. intros w0 Hf0 Ht. rewrite Hp.
  unfold parse, bind, sh_cat, compile_. rewrite Hf0, Ht.
  by destruct (compile _ _).
Qed.

(** ** The shape of a pass *)

Lemma make_steps (opt o : Opt) (w : World) :
  init w opt = Ok o →
  make opt w =
    (process o (inputs o w) (outputs o w) ;;
     finish o (inputs o w) (outputs o w)) (with_dirs o w).
Proof.
  intros Hinit. unfold make, with_dirs, process, finish, outputs, inputs, base_of.
  unfold bind at 1. unfold init_. rewrite Hinit.
  destruct (flow_is_f 0 o); reflexivity.
Qed.

Lemma make_init_error (opt : Opt) (w : World) (msg : string) :
  init w opt = Throw msg → make opt w = (Throw (InitError msg), w).
Proof. intros Hinit. unfold make, bind, init_. by rewrite Hinit. Qed.

Lemma files_with_dirs (o : Opt) (w : World) : files (with_dirs o w) = files w.
Proof. reflexivity. Qed.

Lemma out_with_dirs (o : Opt) (w : World) : out (with_dirs o w) = out w.
Proof. reflexivity. Qed.

Lemma compiled_with_dirs (o o' : Opt) (w : World) (path : string) :
  compiled o (with_dirs o' w) path = compiled o w path.
Proof. by apply compiled_files. Qed.

Lemma dom_dirs_of (to' : list string) (d : string) :
  d ∈ dom (dirs_of to') ↔ d ∈ map dirname to'.
Proof.
  unfold dirs_of.
  assert (∀ m : gmap string nat,
            d ∈ dom (foldl (λ d f, <[dirname f := 0]> d) m to')
            ↔ d ∈ dom m ∨ d ∈ map dirname to') as Hgen.
  { induction to' as [|f to' IH]; intros m; simpl.
    - rewrite elem_of_nil. tauto.
    - rewrite IH, dom_insert, elem_of_union, elem_of_singleton, elem_of_cons. tauto. }
  rewrite Hgen, dom_empty, elem_of_empty. tauto.
Qed.

Lemma dirs_with_dirs (o : Opt) (w : World) (q : string) :
  q ∈ outputs o w → dirname q ∈ dirs (with_dirs o w).
Proof.
  intros Hq. unfold with_dirs, sh_mkdir_p. simpl.
  apply elem_of_union_r, elem_of_list_to_set, elem_of_app. left.
  apply list_elem_of_fmap. 
  assert (dirname q ∈ dom (dirs_of (outputs o w))) as Hd.
  { apply dom_dirs_of, list_elem_of_fmap. eauto. }
  apply elem_of_dom in Hd as [n Hn].
  exists (dirname q, n). split; [done|]. by apply elem_of_map_to_list.
Qed.

Lemma dirs_with_dirs_mono (o : Opt) (w : World) : dirs w ⊆ dirs (with_dirs o w).
Proof. unfold with_dirs, sh_mkdir_p. simpl. set_solver. Qed.

(** ** Compiling a list of inputs *)

Lemma mapM_parse_world (o : Opt) (l : list string) (i : nat) (w : World) :
  (mapM_from (λ path _, parse o path) i l w).2 = w.
Proof.
  revert i. induction l as [|p l IH]; intros i; simpl; [done|].
  unfold bind at 1. rewrite parse_world.
  destruct (compiled o w p); [|done].
  unfold bind at 1. specialize (IH (S i)).
  destruct (mapM_from _ (S i) l w) as [[js|e] w']; simpl in *; by subst.
Qed.

Lemma mapM_parse_Ok (o : Opt) (l js : list string) (i : nat) (w : World) :
  Forall2 (λ p j, compiled o w p = Ok j) l js →
  mapM_from (λ path _, parse o path) i l w = (Ok js, w).
Proof.
  intros H. revert i. induction H as [|p j l js Hp _ IH]; intros i; simpl; [done|].
  unfold bind at 1. rewrite parse_world, Hp.
  unfold bind at 1. by rewrite IH.
Qed.

Lemma mapM_parse_Throw (o : Opt) (pre post js : list string) (p : string)
    (e : exn CErr) (i : nat) (w : World) :
  Forall2 (λ p j, compiled o w p = Ok j) pre js →
  compiled o w p = Throw e →
  mapM_from (λ path _, parse o path) i (pre ++ p :: post) w = (Throw e, w).
Proof.
  intros H Hp. revert i. induction H as [|q j l js Hq _ IH]; intros i; simpl.
  - unfold bind at 1. by rewrite parse_world, Hp.
  - unfold bind at 1. rewrite parse_world, Hq.
    unfold bind at 1. by rewrite IH.
Qed.

(** Either every input compiles, or there is a first one that does not. *)
Lemma compiled_cases (o : Opt) (w : World) (l : list string) :
  (∃ js, Forall2 (λ p j, compiled o w p = Ok j) l js)
  ∨ (∃ pre p post js e, l = pre ++ p :: post
       ∧ Forall2 (λ p j, compiled o w p = Ok j) pre js
       ∧ compiled o w p = Throw e).
Proof.
  induction l as [|p l IH].
  - left. exists []. constructor.
  - destruct (compiled o w p) as [j|e] eqn:Hp.
    + destruct IH as [[js Hjs]|(pre & q & post & js & e & -> & Hpre & Hq)].
      * left. exists (j :: js). by constructor.
      * right. exists (p :: pre), q, post, (j :: js), e.
        split_and!; [done| by constructor | done].
    + right. exists [], p, l, [], e. split_and!; [done| constructor | done].
Qed.

Lemma compiled_failure (o : Opt) (w : World) (path t : string) (e : CErr) :
  files w !! path = Some t →
  compile (strip_BOM t) (compiler o) = Throw e →
  compiled o w path = Throw (CompileError e).
Proof.
  intros Hf Hc. unfold compiled, parse, bind, sh_cat, compile_.
  by rewrite Hf, Hc.
Qed.

(** ** Writing and reporting *)

Lemma sh_to_Ok (text q : string) (w : World) :
  dirname q ∈ dirs w →
  sh_to text (Some q) w = (Ok tt, set_files (<[q := text]> (files w)) w).
Proof. intros Hd. unfold sh_to. by rewrite bool_decide_eq_true_2. Qed.

Lemma set_out_nil (w : World) : set_out (out w ++ []) w = w.
Proof. destruct w. unfold set_out. simpl. by rewrite app_nil_r. Qed.

Lemma report_from (from' to' : list string) (g : string → string) (i0 : nat) (w : World) :
  (∀ i src, from' !! i = Some src → or_first to' (i0 + i) = Some (g src)) →
  mapM_from (λ src i, let! a := ret (toRelative src) in
                      let! b := toRelative_ (or_first to' i) in
                      log (a +:+ " -> " +:+ b)) i0 from' w
  = (Ok (map (λ _, tt) from'),
     set_out (out w ++ map (λ src, toRelative src +:+ " -> " +:+ toRelative (g src)) from') w).
Proof.
  revert i0 w. induction from' as [|src from' IH]; intros i0 w Hg; simpl.
  - by rewrite set_out_nil.
  - pose proof (Hg 0 src eq_refl) as H0. rewrite Nat.add_0_r in H0.
    unfold bind at 1. unfold bind at 1. unfold ret at 1.
    unfold bind at 1. rewrite H0. unfold toRelative_, ret at 1, log at 1.
    unfold bind at 1. rewrite IH.
    + unfold ret. simpl. unfold set_out. simpl. by rewrite <- app_assoc.
    + intros i s Hi. replace (S i0 + i) with (i0 + S i) by lia.
      by apply (Hg (S i)).
Qed.

Lemma or_first_outputs (o : Opt) (w : World) (i : nat) (src : string) :
  inputs o w !! i = Some src →
  (flow_is_f 1 o = false → output_of o src ≠ "") →
  or_first (outputs o w) i = Some (output_of o src).
Proof.
  intros Hi Hne. unfold or_first, outputs, output_of in *.
  destruct (flow_is_f 1 o).
  - destruct i as [|i]; simpl; [by destruct (to o)|done].
  - unfold remap. rewrite list_lookup_fmap, Hi. simpl.
    destruct (mirror (to o) (base_of o) src); [by destruct Hne|done].
Qed.

Lemma report_outputs (o : Opt) (w0 w : World) :
  (flow_is_f 1 o = false → ∀ src, src ∈ inputs o w0 → output_of o src ≠ "") →
  report (inputs o w0) (outputs o w0) w
  = (Ok tt, set_out (out w ++ map (report_line o) (inputs o w0)) w).
Proof.
  intros Hne. unfold report, mapM. unfold bind at 1.
  rewrite (report_from _ _ (output_of o) 0); [done|].
  intros i src Hi. simpl. apply or_first_outputs; [done|].
  intros Hf. apply Hne; [done|]. by eapply list_elem_of_lookup_2.
Qed.

Lemma finish_run (o : Opt) (w0 w : World) :
  (silent (compiler o) = false → flow_is_f 1 o = false →
     ∀ src, src ∈ inputs o w0 → output_of o src ≠ "") →
  finish o (inputs o w0) (outputs o w0) w
  = (Ok o, set_out (out w ++ if silent (compiler o) then []
                            else map (report_line o) (inputs o w0)) w).
Proof.
  intros Hne. unfold finish. destruct (silent (compiler o)); simpl.
  - unfold bind, ret. by rewrite set_out_nil.
  - unfold bind at 1. rewrite report_outputs; [done|]. by apply Hne.
Qed.

(** ** One output file *)

Lemma toFile_Ok (o : Opt) (from' js to' : list string) (q : string) (w : World) :
  to' !! 0 = Some q →
  dirname q ∈ dirs w →
  Forall2 (λ p j, compiled o w p = Ok j) from' js →
  toFile o from' to' w
  = (Ok tt, set_files (<[q := encapsulate o (join_nl js)]> (files w)) w).
Proof.
  intros Hq Hd Hjs. unfold toFile, mapM. unfold bind at 1.
  rewrite (mapM_parse_Ok _ _ js); [|done]. rewrite Hq. by apply sh_to_Ok.
Qed.

Lemma toFile_Throw (o : Opt) (from' pre post js to' : list string) (p : string)
    (e : exn CErr) (w : World) :
  from' = pre ++ p :: post →
  Forall2 (λ p j, compiled o w p = Ok j) pre js →
  compiled o w p = Throw e →
  toFile o from' to' w = (Throw e, w).
Proof.
  intros -> Hjs Hp. unfold toFile, mapM. unfold bind at 1.
  by rewrite (mapM_parse_Throw _ _ _ js _ e).
Qed.

Lemma toDir_nil (o : Opt) (from' to' : list string) (w : World) :
  from' = [] → toDir o from' to' w = (Ok tt, w).
Proof. by intros ->. Qed.

Lemma Forall2_compiled_with_dirs (o o' : Opt) (w : World) (l js : list string) :
  Forall2 (λ p j, compiled o w p = Ok j) l js →
  Forall2 (λ p j, compiled o (with_dirs o' w) p = Ok j) l js.
Proof.
  intros H. eapply Forall2_impl; [exact H|].
  intros p j. by rewrite compiled_with_dirs.
Qed.

Lemma outputs_single (o : Opt) (w : World) :
  flow_is_f 1 o = true → outputs o w = [to o].
Proof. unfold outputs. by intros ->. Qed.

Lemma outputs_mirrored (o : Opt) (w : World) :
  flow_is_f 1 o = false → outputs o w = map (output_of o) (inputs o w).
Proof. unfold outputs, output_of, remap. by intros ->. Qed.

Lemma dirname_to_with_dirs (o : Opt) (w : World) :
  flow_is_f 1 o = true → dirname (to o) ∈ dirs (with_dirs o w).
Proof.
  intros Hf. apply dirs_with_dirs. rewrite outputs_single; [|done].
  apply list_elem_of_singleton. done.
Qed.

Lemma join_nl_head (a b : string) (rest : list string) :
  join_nl ((a +:+ b) :: rest) = a +:+ join_nl (b :: rest).
Proof.
  unfold join_nl. destruct rest as [|c rest]; [done|].
  change (((a +:+ b) +:+ nl +:+ String.concat nl (c :: rest))
          = a +:+ (b +:+ nl +:+ String.concat nl (c :: rest))).
  apply append_assoc.
Qed.

Lemma join_nl_spelled (j : string) (rest : list string) :
  join_nl (j :: rest) = foldl (λ text j', text +:+ String "010"%char j') j rest.
Proof.
  revert j. induction rest as [|a rest IH]; intros j; [done|].
  cbn [foldl]. rewrite <- IH.
  change (String "010"%char a) with (nl +:+ a). rewrite join_nl_head.
  change (join_nl (j :: a :: rest)) with (j +:+ nl +:+ join_nl (a :: rest)).
  by rewrite join_nl_head.
Qed.

(** C1. With a single-file target and module packaging off, a pass whose
    inputs all compile ends normally and changes exactly one file: the
    target holds the compiled text of the first input, then for each
    further input, in the order of the inputs, one newline character and
    that input's compiled text; it is empty when there is no input. *)
Theorem single_file_concatenation (opt o : Opt) (w : World) (js : list string) :
  init w opt = Ok o →
  flow_is_f 1 o = true →
  modular (compiler o) = false →
  Forall2 (λ p j, compiled o w p = Ok j) (inputs o w) js →
  ∃ w', make opt w = (Ok o, w')
        ∧ files w' = <[to o := match js with
                               | [] => ""
                               | j :: rest =>
                                   foldl (λ text j', text +:+ String "010"%char j') j rest
                               end]> (files w).
Proof.
  intros Hinit Hf Hm Hjs. rewrite (make_steps _ o); [|done].
  unfold process. rewrite Hf. unfold bind at 1.
  rewrite (toFile_Ok _ _ js _ (to o)).
  - rewrite finish_run; [|congruence]. eexists. split; [done|].
    simpl. unfold encapsulate. rewrite Hm. simpl.
    destruct js as [|j rest]; [done|]. by rewrite join_nl_spelled.
  - by rewrite outputs_single.
  - by apply dirname_to_with_dirs.
  - by apply Forall2_compiled_with_dirs.
Qed.

(** C10. With a single-file target, when the compiler rejects one of the
    inputs the pass ends with an exception, no file has been written or
    changed, and nothing has been reported. *)
Theorem single_file_atomic (opt o : Opt) (w : World) (p t : string) (e : CErr) :
  init w opt = Ok o →
  flow_is_f 1 o = true →
  p ∈ inputs o w →
  files w !! p = Some t →
  compile (strip_BOM t) (compiler o) = Throw e →
  ∃ e' w', make opt w = (Throw e', w') ∧ files w' = files w ∧ out w' = out w.
Proof.
  intros Hinit Hf Hp Ht He. rewrite (make_steps _ o); [|done].
  unfold process. rewrite Hf.
  destruct (compiled_cases o (with_dirs o w) (inputs o w))
    as [[js Hjs]|(pre & q & post & js & e' & Heq & Hpre & Hq)].
  - apply list_elem_of_lookup in Hp as [i Hi].
    destruct (Forall2_lookup_l _ _ _ _ _ Hjs Hi) as (j & _ & Hj).
    rewrite compiled_with_dirs in Hj.
    rewrite (compiled_failure _ _ _ _ _ Ht He) in Hj. done.
  - unfold bind at 1.
    rewrite (toFile_Throw _ _ pre post js _ q e'); [|done..].
    by exists e', (with_dirs o w).
Qed.

(** C4 (amended). A directory source without tag files does not make the
    pass fail and nothing is reported.  With a mirrored target no file is
    written; with a single-file target the target is written once, holding
    the wrapping of the empty text (the empty text itself when module
    packaging is off). *)
Theorem empty_tree_pass (opt o : Opt) (w : World) :
  init w opt = Ok o →
  flow_is_f 0 o = false →
  find w (from o) = [] →
  ∃ w', make opt w = (Ok o, w')
        ∧ out w' = out w
        ∧ files w' = if flow_is_f 1 o
                     then <[to o := encapsulate o ""]> (files w)
                     else files w.
Proof.
  intros Hinit Hd Hfind.
  assert (inputs o w = []) as Hin by (unfold inputs; by rewrite Hd).
  rewrite (make_steps _ o); [|done]. unfold process.
  destruct (flow_is_f 1 o) eqn:Hf.
  - unfold bind at 1.
    rewrite (toFile_Ok _ _ [] _ (to o)).
    + rewrite finish_run; [|congruence]. eexists. split; [done|].
      rewrite Hin. simpl. destruct (silent (compiler o)); by rewrite app_nil_r.
    + by rewrite outputs_single.
    + by apply dirname_to_with_dirs.
    + rewrite Hin. constructor.
  - unfold bind at 1. rewrite toDir_nil; [|done].
    rewrite finish_run.
    + eexists. split; [done|]. rewrite Hin. simpl.
      destruct (silent (compiler o)); by rewrite app_nil_r.
    + intros _ _ src. rewrite Hin. by intros ?%elem_of_nil.
Qed.

(** ** Mirrored outputs *)

Lemma mapM_from_ext {E A B} (f g : A → nat → M E B) (i : nat) (l : list A) (w : World) :
  (∀ k x w, l !! k = Some x → f x (i + k) w = g x (i + k) w) →
  mapM_from f i l w = mapM_from g i l w.
Proof.
  revert i w. induction l as [|x l IH]; intros i w H; simpl; [done|].
  pose proof (H 0 x w eq_refl) as H0. rewrite Nat.add_0_r in H0.
  unfold bind at 1 3. rewrite H0. destruct (g x i w) as [[y|e] w']; [|done].
  unfold bind at 1 2. rewrite IH; [done|].
  intros k z w1 Hk. replace (S i + k) with (i + S k) by lia. by apply H.
Qed.

Lemma toDir_mirrored (o : Opt) (w0 w : World) :
  flow_is_f 1 o = false →
  toDir o (inputs o w0) (outputs o w0) w
  = (mapM_from (λ p _, write_one o (output_of o) p) 0 (inputs o w0) ;; ret tt) w.
Proof.
  intros Hf. unfold toDir, mapM. unfold bind at 1 3.
  rewrite (mapM_from_ext _ (λ p _, write_one o (output_of o) p)); [done|].
  intros k p w1 Hk. simpl. unfold write_one.
  by rewrite outputs_mirrored, list_lookup_fmap, Hk.
Qed.

Lemma write_one_run (o : Opt) (g : string → string) (p : string) (w : World) :
  dirname (g p) ∈ dirs w →
  write_one o g p w
  = match compiled o w p with
    | Ok js => (Ok tt, set_files (<[g p := encapsulate o js]> (files w)) w)
    | Throw e => (Throw e, w)
    end.
Proof.
  intros Hd. unfold write_one. unfold bind at 1. rewrite parse_world.
  destruct (compiled o w p); [|done]. by apply sh_to_Ok.
Qed.

Lemma compiled_no_dir_error (o : Opt) (w : World) (p d : string) :
  compiled o w p ≠ Throw (NoSuchDir d).
Proof.
  unfold compiled, parse, bind, sh_cat, compile_.
  destruct (files w !! p); [|done]. by destruct (compile _ _).
Qed.

Lemma write_loop_frame (o : Opt) (g : string → string) (l : list string) (i : nat)
    (w w' : World) (r : result (exn CErr) (list unit)) :
  (∀ p, p ∈ l → dirname (g p) ∈ dirs w) →
  mapM_from (λ p _, write_one o g p) i l w = (r, w') →
  dirs w' = dirs w ∧ out w' = out w ∧ ∀ d, r ≠ Throw (NoSuchDir d).
Proof.
  revert i w w' r. induction l as [|p l IH]; intros i w w' r Hd; simpl.
  - by intros [= <- <-].
  - unfold bind at 1. rewrite write_one_run by (apply Hd; left).
    pose proof (compiled_no_dir_error o w p) as Hp.
    destruct (compiled o w p) as [js|e].
    + unfold bind at 1.
      destruct (mapM_from _ (S i) l _) as [[ys|e] w1] eqn:Hrest;
        apply IH in Hrest as (IH1 & IH2 & IH3);
        try (intros q Hq; simpl; apply Hd; by right);
        intros [= <- <-]; simpl in *; split_and!; try done.
    + intros [= <- <-]. split_and!; try done.
      intros d [= ->]. by apply (Hp d).
Qed.

Lemma report_loop_frame (from' to' : list string) (i : nat) (w w' : World)
    (r : result (exn CErr) (list unit)) :
  mapM_from (λ src i, let! a := ret (toRelative src) in
                      let! b := toRelative_ (or_first to' i) in
                      log (a +:+ " -> " +:+ b)) i from' w = (r, w') →
  dirs w' = dirs w ∧ files w' = files w ∧ ∀ d, r ≠ Throw (NoSuchDir d).
Proof.
  revert i w w' r. induction from' as [|src l IH]; intros i w w' r; simpl.
  - by intros [= <- <-].
  - unfold bind at 1. unfold bind at 1. unfold ret at 1. unfold bind at 1.
    destruct (or_first to' i) as [q|]; simpl.
    + unfold bind at 1.
      destruct (mapM_from _ (S i) l _) as [[ys|e] w1] eqn:Hrest;
        apply IH in Hrest as (IH1 & IH2 & IH3);
        intros [= <- <-]; simpl in *; split_and!; try done.
    + intros [= <- <-]. by split_and!.
Qed.

Lemma report_loop_result (from' to' : list string) (i : nat) (w w0 : World) :
  (mapM_from (λ src i, let! a := ret (toRelative src) in
                       let! b := toRelative_ (or_first to' i) in
                       log (a +:+ " -> " +:+ b)) i from' w).1
  = (mapM_from (λ src i, let! a := ret (toRelative src) in
                         let! b := toRelative_ (or_first to' i) in
                         log (a +:+ " -> " +:+ b)) i from' w0).1.
Proof.
  revert i w w0. induction from' as [|src l IH]; intros i w w0; simpl; [done|].
  unfold bind at 1 5. unfold bind at 1 4. unfold ret at 1 4. unfold bind at 1 3.
  destruct (or_first to' i) as [q|]; simpl; [|done].
  unfold bind at 1 2.
  specialize (IH (S i) (log (toRelative src +:+ " -> " +:+ toRelative q) w).2
                       (log (toRelative src +:+ " -> " +:+ toRelative q) w0).2).
  simpl in IH.
  destruct (mapM_from _ (S i) l (set_out (out w ++ _) w)) as [[ys|e] w1];
    destruct (mapM_from _ (S i) l (set_out (out w0 ++ _) w0)) as [[ys'|e'] w1'];
    simpl in *; congruence.
Qed.

Lemma process_frame (o : Opt) (w0 w w' : World) (r : result (exn CErr) unit) :
  (∀ q, q ∈ outputs o w0 → dirname q ∈ dirs w) →
  process o (inputs o w0) (outputs o w0) w = (r, w') →
  dirs w' = dirs w ∧ out w' = out w ∧ ∀ d, r ≠ Throw (NoSuchDir d).
Proof.
  intros Hd. unfold process. destruct (flow_is_f 1 o) eqn:Hf.
  - destruct (compiled_cases o w (inputs o w0))
      as [[js Hjs]|(pre & q & post & js & e & Heq & Hpre & Hq)].
    + rewrite (toFile_Ok _ _ js _ (to o)).
      * by intros [= <- <-].
      * by rewrite outputs_single.
      * apply Hd. rewrite outputs_single; [|done]. by apply list_elem_of_singleton.
      * done.
    + rewrite (toFile_Throw _ _ pre post js _ q e); [|done..].
      intros [= <- <-]. split_and!; [done..|].
      intros d [= ->]. by apply (compiled_no_dir_error o w q d).
  - rewrite toDir_mirrored; [|done]. unfold bind at 1.
    destruct (mapM_from _ 0 (inputs o w0) w) as [[ys|e] w1] eqn:Hloop;
      apply write_loop_frame in Hloop as (H1 & H2 & H3);
      try (intros p Hp; apply Hd; rewrite outputs_mirrored; [|done];
           apply list_elem_of_fmap; eauto);
      intros [= <- <-]; split_and!; try done.
    intros d [= ->]. by apply (H3 d).
Qed.

Lemma finish_frame (o : Opt) (from' to' : list string) (w w' : World)
    (r : result (exn CErr) Opt) :
  finish o from' to' w = (r, w') →
  dirs w' = dirs w ∧ files w' = files w ∧ ∀ d, r ≠ Throw (NoSuchDir d).
Proof.
  unfold finish. destruct (negb (silent (compiler o))).
  - unfold bind at 1. unfold report, mapM. unfold bind at 1.
    destruct (mapM_from _ 0 from' w) as [[ys|e] w1] eqn:Hloop;
      apply report_loop_frame in Hloop as (H1 & H2 & H3);
      intros [= <- <-]; split_and!; try done.
    intros d [= ->]. by apply (H3 d).
  - by intros [= <- <-].
Qed.

(** C7. Whatever the options and the world, a pass never fails because
    the directory of an output is missing; every directory that holds a
    resolved output exists when the writing starts, and still exists when
    the pass ends. *)
Theorem directories_before_writes (opt : Opt) (w : World) :
  (∀ d, (make opt w).1 ≠ Throw (NoSuchDir d))
  ∧ ∀ o q, init w opt = Ok o → q ∈ outputs o w →
           dirname q ∈ dirs (with_dirs o w) ∧ dirname q ∈ dirs (make opt w).2.
Proof.
  destruct (init w opt) as [o|msg] eqn:Hinit.
  - rewrite (make_steps _ o); [|done]. unfold bind at 1 2.
    destruct (process _ _ _ _) as [[[]|e] w1] eqn:Hproc;
      apply process_frame in Hproc as (H1 & H2 & H3);
      try (intros q Hq; by apply dirs_with_dirs).
    + destruct (finish _ _ _ _) as [r w2] eqn:Hfin.
      apply finish_frame in Hfin as (F1 & F2 & F3). cbn [fst snd].
      split; [exact F3|]. intros o' q [= <-] Hq.
      rewrite F1, H1. split; by apply dirs_with_dirs.
    + cbn [fst snd]. split; [intros d [= ->]; by apply (H3 d)|].
      intros o' q [= <-] Hq.
      rewrite H1. split; by apply dirs_with_dirs.
  - rewrite (make_init_error _ _ msg); [|done]. cbn [fst snd]. split; [done|].
    intros o q [=].
Qed.


(** ** A compiler error in the middle of a pass *)

Lemma set_files_id (w : World) : set_files (files w) w = w.
Proof. by destruct w. Qed.

Lemma Forall2_impl_elem {A B} (P Q : A → B → Prop) (l : list A) (k : list B) :
  Forall2 P l k → (∀ x y, x ∈ l → P x y → Q x y) → Forall2 Q l k.
Proof.
  induction 1 as [|x y l k Hxy _ IH]; intros HPQ; constructor.
  - apply HPQ; [left|done].
  - apply IH. intros x' y' Hx'. apply HPQ. by right.
Qed.

Lemma compiled_insert_ne (o : Opt) (w : World) (q p text : string) :
  q ≠ p →
  compiled o (set_files (<[q := text]> (files w)) w) p = compiled o w p.
Proof. intros Hne. apply compiled_files. simpl. by rewrite lookup_insert_ne. Qed.

Lemma write_loop_Throw (o : Opt) (g : string → string) (pre post js : list string)
    (f : string) (e : exn CErr) (i : nat) (w : World) :
  (∀ p, p ∈ pre → dirname (g p) ∈ dirs w) →
  Forall2 (λ p j, compiled o w p = Ok j) pre js →
  compiled o w f = Throw e →
  (∀ p, p ∈ pre ++ [f] → p ∉ map g pre) →
  mapM_from (λ p _, write_one o g p) i (pre ++ f :: post) w
  = (Throw e, set_files (written o g (files w) pre js) w).
Proof.
  intros Hd Hjs. revert i w Hd Hjs.
  revert js. induction pre as [|p pre IH]; intros js i w Hd Hjs Hf Hdisj.
  - apply Forall2_nil_inv_l in Hjs as ->. simpl.
    unfold bind at 1. unfold write_one. unfold bind at 1.
    rewrite parse_world, Hf. unfold written. simpl. by rewrite set_files_id.
  - apply Forall2_cons_inv_l in Hjs as (j & js' & Hp & Hjs & ->). simpl.
    unfold bind at 1. rewrite write_one_run by (apply Hd; left). rewrite Hp.
    unfold bind at 1.
    assert (∀ q, q ∈ pre ++ [f] → g p ≠ q) as Hfresh.
    { intros q Hq Heq. apply (Hdisj q).
      - simpl. by right.
      - simpl. rewrite <- Heq. left. }
    rewrite (IH js').
    + done.
    + intros q Hq. simpl. apply Hd. by right.
    + eapply Forall2_impl_elem; [exact Hjs|]. intros q j' Hq Hqj. simpl in Hqj.
      rewrite compiled_insert_ne; [done|]. apply Hfresh, elem_of_app. by left.
    + rewrite compiled_insert_ne; [done|].
      apply Hfresh, elem_of_app. right. by apply list_elem_of_singleton.
    + intros q Hq Hbad. apply (Hdisj q); simpl; by right.
Qed.

(** C2. When the compiler throws on an input and the inputs before it
    compiled, the pass ends there with the compiler's own error and without
    a report.  With a mirrored target the outputs of the inputs before it
    have been written and stay (provided none of them is itself one of the
    inputs up to that point, so that what is read is what was there at the
    start); with a single-file target no file has changed. *)
Theorem compile_error_aborts (opt o : Opt) (w : World) (pre post js : list string)
    (f t : string) (e : CErr) :
  init w opt = Ok o →
  inputs o w = pre ++ f :: post →
  Forall2 (λ p j, compiled o w p = Ok j) pre js →
  files w !! f = Some t →
  compile (strip_BOM t) (compiler o) = Throw e →
  (flow_is_f 1 o = false → ∀ p, p ∈ pre ++ [f] → p ∉ map (output_of o) pre) →
  ∃ w', make opt w = (Throw (CompileError e), w')
        ∧ out w' = out w
        ∧ files w' = if flow_is_f 1 o then files w
                     else written o (output_of o) (files w) pre js.
Proof.
  intros Hinit Hin Hjs Ht He Hdisj.
  pose proof (compiled_failure _ _ _ _ _ Ht He) as Hf.
  rewrite (make_steps _ o); [|done]. unfold process.
  destruct (flow_is_f 1 o) eqn:Hflow.
  - unfold bind at 1.
    rewrite (toFile_Throw _ _ pre post js _ f (CompileError e)).
    + by eexists.
    + done.
    + by apply Forall2_compiled_with_dirs.
    + by rewrite compiled_with_dirs.
  - unfold bind at 1. rewrite toDir_mirrored; [|done]. unfold bind at 1.
    rewrite Hin.
    rewrite (write_loop_Throw _ _ pre post js f (CompileError e)).
    + by eexists.
    + intros p Hp. apply dirs_with_dirs. rewrite outputs_mirrored; [|done].
      apply list_elem_of_fmap. exists p. split; [done|].
      rewrite Hin. apply elem_of_app. by left.
    + by apply Forall2_compiled_with_dirs.
    + by rewrite compiled_with_dirs.
    + by apply Hdisj.
Qed.

(** ** Running a pass again *)

Lemma agree_read (F0 F1 : gmap string string) (D : gset string) (s1 s2 : World) (p : string) :
  agree F0 F1 D s1 s2 → F1 !! p = F0 !! p → files s1 !! p = files s2 !! p.
Proof.
  intros [Hin Hout] Hp. destruct (decide (p ∈ D)) as [HD|HD].
  - symmetry. by apply Hin.
  - destruct (Hout p HD) as [-> ->]. done.
Qed.

Lemma agree_write (F0 F1 : gmap string string) (D : gset string) (s1 s2 : World)
    (q text : string) :
  agree F0 F1 D s1 s2 →
  agree F0 F1 (D ∪ {[q]})
    (set_files (<[q := text]> (files s1)) s1) (set_files (<[q := text]> (files s2)) s2).
Proof.
  intros [Hin Hout]. split; intros p Hp; simpl.
  - destruct (decide (q = p)) as [->|Hne].
    + by rewrite !lookup_insert_eq.
    + rewrite !lookup_insert_ne by done. apply Hin.
      apply elem_of_union in Hp as [Hp|Hp]; [done|].
      apply elem_of_singleton in Hp. congruence.
  - apply not_elem_of_union in Hp as [HpD Hpq].
    apply not_elem_of_singleton in Hpq.
    rewrite !lookup_insert_ne by congruence. by apply Hout.
Qed.

Lemma write_loop_twice (o : Opt) (g : string → string) (F0 F1 : gmap string string)
    (l : list string) (i : nat) (D : gset string) (s1 s2 s1' s2' : World)
    (r1 r2 : result (exn CErr) (list unit)) :
  (∀ p, p ∈ l → F1 !! p = F0 !! p) →
  (∀ p, p ∈ l → dirname (g p) ∈ dirs s1) →
  (∀ p, p ∈ l → dirname (g p) ∈ dirs s2) →
  agree F0 F1 D s1 s2 →
  mapM_from (λ p _, write_one o g p) i l s1 = (r1, s1') →
  mapM_from (λ p _, write_one o g p) i l s2 = (r2, s2') →
  r1 = r2 ∧ ∃ D', agree F0 F1 D' s1' s2'.
Proof.
  revert i D s1 s2 s1' s2' r1 r2.
  induction l as [|p l IH]; intros i D s1 s2 s1' s2' r1 r2 HF Hd1 Hd2 Hag; simpl.
  - intros [= <- <-] [= <- <-]. eauto.
  - intros Hrun1 Hrun2.
    unfold bind at 1 in Hrun1. unfold bind at 1 in Hrun2.
    rewrite write_one_run in Hrun1 by (apply Hd1; left).
    rewrite write_one_run in Hrun2 by (apply Hd2; left).
    assert (compiled o s1 p = compiled o s2 p) as Hsame.
    { apply compiled_files. eapply agree_read; [done|]. apply HF. left. }
    rewrite <- Hsame in Hrun2. destruct (compiled o s1 p) as [js|e].
    + unfold bind at 1 in Hrun1. unfold bind at 1 in Hrun2.
      destruct (mapM_from _ (S i) l (set_files _ s1)) as [rest1 t1] eqn:H1.
      destruct (mapM_from _ (S i) l (set_files _ s2)) as [rest2 t2] eqn:H2.
      assert (rest1 = rest2 ∧ ∃ D', agree F0 F1 D' t1 t2) as [<- [D' HD']].
      { eapply IH; [| | | | exact H1 | exact H2].
        - intros q Hq. apply HF. by right.
        - intros q Hq. apply Hd1. by right.
        - intros q Hq. apply Hd2. by right.
        - by apply agree_write. }
      destruct rest1; injection Hrun1 as <- <-; injection Hrun2 as <- <-; eauto.
    + injection Hrun1 as <- <-. injection Hrun2 as <- <-. eauto.
Qed.

Lemma process_twice (o : Opt) (w0 s1 s2 s1' s2' : World) (r1 r2 : result (exn CErr) unit) :
  (∀ p, p ∈ inputs o w0 → files s2 !! p = files s1 !! p) →
  (∀ q, q ∈ outputs o w0 → dirname q ∈ dirs s1) →
  (∀ q, q ∈ outputs o w0 → dirname q ∈ dirs s2) →
  process o (inputs o w0) (outputs o w0) s1 = (r1, s1') →
  files s1' = files s2 →
  process o (inputs o w0) (outputs o w0) s2 = (r2, s2') →
  r1 = r2 ∧ files s2' = files s2.
Proof.
  intros HF Hd1 Hd2. unfold process. destruct (flow_is_f 1 o) eqn:Hf.
  - assert (outputs o w0 !! 0 = Some (to o)) as Hto by (by rewrite outputs_single).
    assert (to o ∈ outputs o w0) as Hin by (by eapply list_elem_of_lookup_2).
    destruct (compiled_cases o s1 (inputs o w0))
      as [[js Hjs]|(pre & q & post & js & e & Heq & Hpre & Hq)].
    + rewrite (toFile_Ok _ _ js _ (to o)); [|done|by apply Hd1|done].
      rewrite (toFile_Ok _ _ js _ (to o)); [|done|by apply Hd2|].
      * intros [= <- <-] Hfiles [= <- <-]. simpl in *. split; [done|].
        by rewrite <- Hfiles, insert_insert_eq.
      * eapply Forall2_impl_elem; [exact Hjs|]. intros p j Hp Hpj. simpl in Hpj.
        rewrite <- Hpj. apply compiled_files. by apply HF.
    + rewrite (toFile_Throw _ _ pre post js _ q e); [|done..].
      rewrite (toFile_Throw _ _ pre post js _ q e); [|done|..].
      * by intros [= <- <-] Hfiles [= <- <-].
      * eapply Forall2_impl_elem; [exact Hpre|]. intros p j Hp Hpj. simpl in Hpj.
        rewrite <- Hpj. apply compiled_files, HF. rewrite Heq.
        apply elem_of_app. by left.
      * rewrite <- Hq. apply compiled_files, HF. rewrite Heq.
        apply elem_of_app. right. left.
  - rewrite !toDir_mirrored by done. intros Hrun1 Hfiles Hrun2.
    unfold bind at 1 in Hrun1. unfold bind at 1 in Hrun2.
    destruct (mapM_from _ 0 (inputs o w0) s1) as [l1 t1] eqn:H1.
    destruct (mapM_from _ 0 (inputs o w0) s2) as [l2 t2] eqn:H2.
    destruct (write_loop_twice o (output_of o) (files s1) (files s2)
                (inputs o w0) 0 ∅ s1 s2 t1 t2 l1 l2) as [<- [D' [HD1 HD2]]];
      try done.
    { intros p Hp. apply Hd1. rewrite outputs_mirrored; [|done].
      apply list_elem_of_fmap. eauto. }
    { intros p Hp. apply Hd2. rewrite outputs_mirrored; [|done].
      apply list_elem_of_fmap. eauto. }
    assert (files t1 = files s2 → files t2 = files s2) as Hend.
    { intros Hsame. apply map_eq. intros p.
      destruct (decide (p ∈ D')) as [HD|HD].
      - rewrite (HD1 p HD). by rewrite Hsame.
      - by destruct (HD2 p HD) as [-> _]. }
    destruct l1; injection Hrun1 as <- <-; injection Hrun2 as <- <-; auto.
Qed.

Lemma finish_result (o : Opt) (from' to' : list string) (w w0 : World) :
  (finish o from' to' w).1 = (finish o from' to' w0).1.
Proof.
  unfold finish. destruct (negb (silent (compiler o))); [|done].
  pose proof (report_loop_result from' to' 0 w w0) as Hres.
  unfold report, mapM. rewrite !bind_run.
  destruct (mapM_from _ 0 from' w) as [[ys|e] w1];
    destruct (mapM_from _ 0 from' w0) as [[ys'|e'] w1'];
    simpl in *; congruence.
Qed.

Lemma outputs_same_inputs (o : Opt) (w w1 : World) :
  inputs o w1 = inputs o w → outputs o w1 = outputs o w.
Proof. unfold outputs. by intros ->. Qed.

(** C9. A second pass with the same options, started where the first one
    ended, with the same inputs resolved and each input holding what it
    held before the first pass, ends the way the first one did and leaves
    every file as the first pass left it. *)
Theorem rebuild_same_files (opt o : Opt) (w w1 : World) (r1 : result (exn CErr) Opt) :
  init w opt = Ok o →
  make opt w = (r1, w1) →
  init w1 opt = Ok o →
  inputs o w1 = inputs o w →
  (∀ p, p ∈ inputs o w → files w1 !! p = files w !! p) →
  ∃ w2, make opt w1 = (r1, w2) ∧ files w2 = files w1.
Proof.
  intros Hinit Hmake Hinit1 Hin HF.
  rewrite (make_steps _ o) in Hmake by done.
  rewrite (make_steps _ o) by done.
  rewrite (outputs_same_inputs _ _ _ Hin), Hin.
  assert (∀ q, q ∈ outputs o w → dirname q ∈ dirs (with_dirs o w1)) as Hd2.
  { intros q Hq. apply dirs_with_dirs. by rewrite (outputs_same_inputs _ _ _ Hin). }
  unfold bind at 1 in Hmake. unfold bind at 1.
  destruct (process o (inputs o w) (outputs o w) (with_dirs o w)) as [rp1 W1] eqn:Hp1.
  destruct (process o (inputs o w) (outputs o w) (with_dirs o w1)) as [rp2 W2] eqn:Hp2.
  assert (files W1 = files w1) as HW1.
  { destruct rp1 as [[]|e].
    - destruct (finish _ _ _ W1) as [rf wf] eqn:Hfin.
      apply finish_frame in Hfin as (_ & Hfiles & _). by injection Hmake as _ <-.
    - by injection Hmake as _ <-. }
  destruct (process_twice o w (with_dirs o w) (with_dirs o w1) W1 W2 rp1 rp2)
    as [<- HW2]; try done.
  { intros q Hq. by apply dirs_with_dirs. }
  rewrite files_with_dirs in HW2.
  destruct rp1 as [[]|e].
  - pose proof (finish_result o (inputs o w) (outputs o w) W1 W2) as Hres.
    destruct (finish _ _ _ W1) as [rf wf] eqn:Hfin1.
    destruct (finish _ _ _ W2) as [rf2 wf2] eqn:Hfin2.
    apply finish_frame in Hfin2 as (_ & Hfiles2 & _).
    simpl in Hres. subst rf2. injection Hmake as -> ->.
    eexists. split; [done|]. by rewrite Hfiles2.
  - injection Hmake as <- <-. by eexists.
Qed.

(** ** Watching *)

Lemma deliver_initial (glob : string) (ps : list string) (evs : list FsEvent)
    (o : Opt) (w : World) :
  deliver glob (map InitialAdd ps ++ evs) o w = deliver glob evs o w.
Proof. induction ps as [|p ps IH]; simpl; [done|]. by rewrite bind_run. Qed.

Lemma deliver_changes (glob : string) (cs : list string) (o : Opt) (w : World) :
  deliver glob (map Change cs) o w = passes (length cs) o w.
Proof.
  revert o w. induction cs as [|c cs IH]; intros o w; simpl; [done|].
  rewrite !bind_run. destruct (make o w) as [[o'|e] w']; [apply IH|done].
Qed.

(** C5. When the watcher announces the files of its first scan, then that
    the scan is over, then the changes [cs], [watch] does this and nothing
    else: one pass, the line that says watching has started, and one more
    whole pass ([make], with its own [init] and [find]) for each change, in
    that order, up to the first exception. *)
Theorem watch_rebuilds (join : string → string → string) (opt : Opt)
    (stream : string → list FsEvent) (ps cs : string → list string) (w : World) :
  (∀ glob, stream glob = map InitialAdd (ps glob) ++ Ready :: map Change (cs glob)) →
  watch join opt stream w
  = (let! o := init_ opt in
     let! o := make o in
     log ("Watching " +:+ toRelative (glob_of join o)) ;;
     passes (length (cs (glob_of join o))) o) w.
Proof.
  intros Hstream. unfold watch. rewrite !bind_run.
  destruct (init_ opt w) as [[o|e] w0]; [|done].
  rewrite !bind_run. destruct (make o w0) as [[o'|e] w1]; [|done].
  fold (glob_of join o'). rewrite Hstream, deliver_initial. simpl.
  rewrite !bind_run. simpl. apply deliver_changes.
Qed.

(** ** More about the wrapper *)

Lemma append_length (a b : string) :
  String.length (a +:+ b) = String.length a + String.length b.
Proof.
  induction a as [|c a IH]; [done|]. rewrite append_cons. simpl. by rewrite IH.
Qed.

Lemma append_cancel_r (a b t : string) : a +:+ t = b +:+ t → a = b.
Proof.
  revert b. induction a as [|c a IH]; intros [|d b] H.
  - done.
  - apply (f_equal String.length) in H.
    rewrite !append_length in H. simpl in H. lia.
  - apply (f_equal String.length) in H.
    rewrite !append_length in H. simpl in H. lia.
  - rewrite !append_cons in H. injection H as -> H. f_equal. by apply IH.
Qed.

(** X1. Whatever the options, two texts with the same wrapping are the
    same text: the compiled code can be read back from an output. *)
Theorem encapsulate_inj (opt : Opt) (a b : string) :
  encapsulate opt a = encapsulate opt b → a = b.
Proof.
  unfold encapsulate. destruct (negb (modular (compiler opt))); [done|].
  intros H. apply String.app_inj in H. by apply append_cancel_r in H.
Qed.

(** ** More about a pass *)

Lemma keys_dirs_of (to' : list string) (d : string) :
  d ∈ map fst (map_to_list (dirs_of to')) ↔ d ∈ map dirname to'.
Proof.
  rewrite <- dom_dirs_of, elem_of_dom. split.
  - intros [[d' n] [-> Hn]]%list_elem_of_fmap. exists n.
    by apply elem_of_map_to_list.
  - intros [n Hn]. apply list_elem_of_fmap. exists (d, n).
    split; [done|]. by apply elem_of_map_to_list.
Qed.

Lemma dom_dirs_from (m : gmap string nat) (to' : list string) (d : string) :
  d ∈ dom (foldl (λ d f, <[dirname f := 0]> d) m to')
  ↔ d ∈ dom m ∨ ∃ q, q ∈ to' ∧ d = dirname q.
Proof using dirname.
  revert m. induction to' as [|f to' IH]; intros m; simpl.
  - split; [by left|]. intros [H|(q & Hq & _)]; [exact H|].
    by apply elem_of_nil in Hq.
  - rewrite IH, dom_insert, elem_of_union, elem_of_singleton. split.
    + intros [[->|H]|(q & Hq & ->)].
      * right. exists f. split; [left|reflexivity].
      * by left.
      * right. exists q. split; [by right|reflexivity].
    + intros [H|(q & Hq & ->)].
      * left. by right.
      * apply elem_of_cons in Hq as [->|Hq].
        -- left. by left.
        -- right. exists q. by split.
Qed.

(** X2. The directories handed to [mkdir] are the directories of the
    outputs, each of them once however many outputs it holds. *)
Theorem mkdir_each_directory_once (to' : list string) :
  NoDup (map fst (map_to_list (dirs_of to')))
  ∧ ∀ d, d ∈ map fst (map_to_list (dirs_of to')) ↔ ∃ q, q ∈ to' ∧ d = dirname q.
Proof using dirname.
  split; [apply NoDup_fst_map_to_list|].
  intros d. unfold dirs_of.
  pose proof (dom_dirs_from ∅ to' d) as Hdom.
  rewrite dom_empty, elem_of_empty in Hdom.
  split.
  - intros Hd. apply list_elem_of_fmap in Hd as ([d' n] & -> & Hn).
    apply elem_of_map_to_list in Hn.
    destruct (proj1 Hdom) as [[]|H]; [|exact H].
    apply elem_of_dom. by exists n.
  - intros H. pose proof (proj2 Hdom (or_intror H)) as Hin.
    apply elem_of_dom in Hin as [n Hn].
    apply list_elem_of_fmap. exists (d, n). split; [reflexivity|].
    by apply elem_of_map_to_list.
Qed.

Lemma or_first_outputs_some (o : Opt) (w : World) (i : nat) (src : string) :
  inputs o w !! i = Some src → is_Some (or_first (outputs o w) i).
Proof.
  intros Hi. unfold or_first, outputs.
  destruct (flow_is_f 1 o).
  - destruct i as [|i]; simpl; [destruct (to o); eauto | eauto].
  - unfold remap. rewrite list_lookup_fmap, Hi. simpl.
    destruct (mirror (to o) (base_of o) src); [|eauto].
    destruct (inputs o w) as [|p l]; [done|]. simpl. eauto.
Qed.

Lemma report_loop_Ok (from' to' : list string) (i0 : nat) (w : World) :
  (∀ i src, from' !! i = Some src → is_Some (or_first to' (i0 + i))) →
  ∃ ys w', mapM_from (λ src i, let! a := ret (toRelative src) in
                               let! b := toRelative_ (or_first to' i) in
                               log (a +:+ " -> " +:+ b)) i0 from' w = (Ok ys, w').
Proof.
  revert i0 w. induction from' as [|src l IH]; intros i0 w Hsome; simpl; [by eexists _, _|].
  destruct (Hsome 0 src eq_refl) as [q Hq]. rewrite Nat.add_0_r in Hq.
  assert ((let! a := ret (toRelative src) in
           let! b := toRelative_ (or_first to' i0) in
           log (a +:+ " -> " +:+ b)) w
          = (Ok tt, set_out (out w ++ [toRelative src +:+ " -> " +:+ toRelative q]) w))
    as Hstep.
  { unfold bind, ret, toRelative_. by rewrite Hq. }
  rewrite bind_run, Hstep, bind_run.
  destruct (IH (S i0) (set_out (out w ++ [toRelative src +:+ " -> " +:+ toRelative q]) w))
    as (ys & w' & ->).
  { intros i s Hi. replace (S i0 + i) with (i0 + S i) by lia.
    by apply (Hsome (S i) s). }
  by eexists _, _.
Qed.

Lemma finish_Ok (o : Opt) (w0 w : World) :
  ∃ w', finish o (inputs o w0) (outputs o w0) w = (Ok o, w')
        ∧ files w' = files w ∧ dirs w' = dirs w.
Proof.
  destruct (finish o (inputs o w0) (outputs o w0) w) as [r w'] eqn:Hfin.
  pose proof (finish_frame _ _ _ _ _ _ Hfin) as (Hd & Hf & _).
  exists w'. split; [|done]. f_equal.
  unfold finish in Hfin. destruct (negb (silent (compiler o))).
  - rewrite bind_run in Hfin. unfold report, mapM in Hfin. rewrite bind_run in Hfin.
    destruct (report_loop_Ok (inputs o w0) (outputs o w0) 0 w) as (ys & w1 & Hrun).
    { intros i src Hi. by eapply or_first_outputs_some. }
    rewrite Hrun in Hfin. by injection Hfin as <- _.
  - by injection Hfin as <- _.
Qed.

(** X3. With a single-file target, a pass whose inputs all compile changes
    only the target, and the wrapper is put once around the whole
    concatenation, not around the text of each input. *)
Theorem single_file_wrapped_once (opt o : Opt) (w : World) (js : list string) :
  init w opt = Ok o →
  flow_is_f 1 o = true →
  Forall2 (λ p j, compiled o w p = Ok j) (inputs o w) js →
  ∃ w', make opt w = (Ok o, w')
        ∧ files w' = <[to o := if modular (compiler o)
                              then shim_head +:+ join_nl js +:+ shim_tail
                              else join_nl js]> (files w).
Proof.
  intros Hinit Hf Hjs. rewrite (make_steps _ o); [|done].
  unfold process. rewrite Hf. rewrite bind_run.
  rewrite (toFile_Ok _ _ js _ (to o)).
  - destruct (finish_Ok o w (set_files (<[to o:=encapsulate o (join_nl js)]>
                                         (files (with_dirs o w))) (with_dirs o w)))
      as (w' & -> & Hfiles & _).
    exists w'. split; [done|]. rewrite Hfiles. simpl.
    unfold encapsulate. by destruct (modular (compiler o)).
  - by rewrite outputs_single.
  - by apply dirname_to_with_dirs.
  - by apply Forall2_compiled_with_dirs.
Qed.

Lemma write_loop_Ok (o : Opt) (g : string → string) (l js : list string)
    (i : nat) (w : World) :
  (∀ p, p ∈ l → dirname (g p) ∈ dirs w) →
  Forall2 (λ p j, compiled o w p = Ok j) l js →
  (∀ p, p ∈ l → p ∉ map g l) →
  mapM_from (λ p _, write_one o g p) i l w
  = (Ok (map (λ _, tt) l), set_files (written o g (files w) l js) w).
Proof.
  revert js i w. induction l as [|p l IH]; intros js i w Hd Hjs Hdisj.
  - apply Forall2_nil_inv_l in Hjs as ->. simpl. unfold ret, written. simpl.
    by rewrite set_files_id.
  - apply Forall2_cons_inv_l in Hjs as (j & js' & Hp & Hjs & ->). simpl.
    rewrite bind_run. rewrite write_one_run by (apply Hd; left). rewrite Hp.
    rewrite bind_run.
    assert (∀ q, q ∈ l → g p ≠ q) as Hfresh.
    { intros q Hq Heq. apply (Hdisj q); [by right|]. simpl. rewrite <- Heq. left. }
    rewrite (IH js').
    + done.
    + intros q Hq. simpl. apply Hd. by right.
    + eapply Forall2_impl_elem; [exact Hjs|]. intros q j' Hq Hqj. simpl in Hqj.
      rewrite compiled_insert_ne; [done|]. by apply Hfresh.
    + intros q Hq Hbad. apply (Hdisj q); [by right|]. simpl. by right.
Qed.

Lemma mirrored_run (opt o : Opt) (w : World) (js : list string) :
  init w opt = Ok o →
  flow_is_f 1 o = false →
  Forall2 (λ p j, compiled o w p = Ok j) (inputs o w) js →
  (∀ p, p ∈ inputs o w → p ∉ map (output_of o) (inputs o w)) →
  ∃ w', make opt w = (Ok o, w')
        ∧ files w' = written o (output_of o) (files w) (inputs o w) js.
Proof.
  intros Hinit Hf Hjs Hdisj. rewrite (make_steps _ o); [|done].
  unfold process. rewrite Hf. rewrite bind_run.
  rewrite toDir_mirrored; [|done]. rewrite bind_run.
  rewrite (write_loop_Ok _ _ _ js).
  - unfold ret at 1.
    destruct (finish_Ok o w (set_files (written o (output_of o) (files (with_dirs o w))
                                          (inputs o w) js) (with_dirs o w)))
      as (w' & -> & Hfiles & _).
    exists w'. split; [done|]. by rewrite Hfiles.
  - intros p Hp. apply dirs_with_dirs. rewrite outputs_mirrored; [|done].
    apply list_elem_of_fmap. eauto.
  - by apply Forall2_compiled_with_dirs.
  - done.
Qed.

(** X4. With a mirrored target, a pass whose inputs all compile, and none
    of whose outputs is one of its inputs, ends normally, and the files are
    what they were with the wrapping of each input's compiled text stored
    at that input's output path, in the order of the inputs. *)
Theorem mirrored_pass (opt o : Opt) (w : World) (js : list string) :
  init w opt = Ok o →
  flow_is_f 1 o = false →
  Forall2 (λ p j, compiled o w p = Ok j) (inputs o w) js →
  (∀ p, p ∈ inputs o w → p ∉ map (output_of o) (inputs o w)) →
  ∃ w', make opt w = (Ok o, w')
        ∧ files w' = written o (output_of o) (files w) (inputs o w) js.
Proof. apply mirrored_run. Qed.

Lemma written_lookup_other (o : Opt) (g : string → string) (m : gmap string string)
    (l js : list string) (q : string) :
  q ∉ map g l → written o g m l js !! q = m !! q.
Proof.
  unfold written. revert m js. induction l as [|p l IH]; intros m js Hq; [done|].
  destruct js as [|j js]; [done|]. simpl.
  rewrite IH.
  - apply lookup_insert_ne. intros Heq. apply Hq. simpl. rewrite Heq. left.
  - intros Hin. apply Hq. simpl. by right.
Qed.

Lemma written_lookup (o : Opt) (g : string → string) (m : gmap string string)
    (l js : list string) (i : nat) (p j : string) :
  NoDup (map g l) → l !! i = Some p → js !! i = Some j →
  written o g m l js !! g p = Some (encapsulate o j).
Proof.
  revert m js i. induction l as [|p0 l IH]; intros m js i Hnd Hp Hj; [done|].
  destruct js as [|j0 js]; [done|].
  simpl in Hnd. apply NoDup_cons in Hnd as [Hfresh Hnd].
  destruct i as [|i]; simpl in *.
  - injection Hp as ->. injection Hj as ->.
    change (written o g (<[g p := encapsulate o j]> m) l js !! g p = Some (encapsulate o j)).
    rewrite written_lookup_other by done. apply lookup_insert_eq.
  - by apply (IH _ js i).
Qed.

(** X5. In a mirrored pass whose inputs all compile and none of whose
    outputs is one of its inputs, when the outputs are all different paths,
    the output of each input holds the wrapping of that input's compiled
    text. *)
Theorem mirrored_each_output (opt o : Opt) (w : World) (js : list string)
    (i : nat) (p j : string) :
  init w opt = Ok o →
  flow_is_f 1 o = false →
  Forall2 (λ p j, compiled o w p = Ok j) (inputs o w) js →
  (∀ p, p ∈ inputs o w → p ∉ map (output_of o) (inputs o w)) →
  NoDup (map (output_of o) (inputs o w)) →
  inputs o w !! i = Some p →
  js !! i = Some j →
  files (make opt w).2 !! output_of o p = Some (encapsulate o j).
Proof.
  intros Hinit Hf Hjs Hdisj Hnd Hp Hj.
  destruct (mirrored_run opt o w js) as (w' & Hmake & Hfiles); try done.
  rewrite Hmake. cbn [snd]. rewrite Hfiles. by eapply written_lookup.
Qed.

Lemma compiled_error_shape (o : Opt) (w : World) (p : string) (e : exn CErr) :
  compiled o w p = Throw e → (∃ c, e = CompileError c) ∨ e = NoSuchFile p.
Proof.
  unfold compiled, parse, bind, sh_cat, compile_.
  destruct (files w !! p); [|intros [= <-]; by right].
  destruct (compile _ _); [done|]. intros [= <-]. left. eauto.
Qed.

Lemma write_loop_effects (o : Opt) (g : string → string) (l : list string) (i : nat)
    (w w' : World) (r : result (exn CErr) (list unit)) :
  (∀ p, p ∈ l → dirname (g p) ∈ dirs w) →
  mapM_from (λ p _, write_one o g p) i l w = (r, w') →
  (∀ q, q ∉ map g l → files w' !! q = files w !! q)
  ∧ (∀ q, is_Some (files w !! q) → is_Some (files w' !! q))
  ∧ (∀ e, r = Throw e → ∃ p w0, p ∈ l ∧ compiled o w0 p = Throw e).
Proof.
  revert i w w' r. induction l as [|p l IH]; intros i w w' r Hd; simpl.
  - intros [= <- <-]. split_and!; [done..|]. intros e [=].
  - rewrite bind_run. rewrite write_one_run by (apply Hd; left).
    destruct (compiled o w p) as [js|e] eqn:Hp.
    + rewrite bind_run.
      destruct (mapM_from _ (S i) l _) as [rest w1] eqn:Hrest.
      apply IH in Hrest as (IH1 & IH2 & IH3);
        [|intros q Hq; simpl; apply Hd; by right].
      simpl in IH1, IH2.
      assert ((∀ q, q ∉ g p :: map g l → files w1 !! q = files w !! q)
              ∧ (∀ q, is_Some (files w !! q) → is_Some (files w1 !! q))) as [H1 H2].
      { split.
        - intros q Hq. apply not_elem_of_cons in Hq as [Hne Hq].
          rewrite IH1 by done. by apply lookup_insert_ne.
        - intros q Hq. apply IH2. destruct (decide (g p = q)) as [->|Hne].
          + rewrite lookup_insert_eq. eauto.
          + by rewrite lookup_insert_ne. }
      destruct rest as [ys|e]; intros [= <- <-]; split_and!; try done.
      intros e' [= <-]. destruct (IH3 e eq_refl) as (q & w0 & Hq & Hcq).
      exists q, w0. split; [by right|done].
    + intros [= <- <-]. split_and!; [done..|].
      intros e' [= <-]. exists p, w. split; [left|done].
Qed.

Lemma process_effects (o : Opt) (w0 w w' : World) (r : result (exn CErr) unit) :
  (∀ q, q ∈ outputs o w0 → dirname q ∈ dirs w) →
  process o (inputs o w0) (outputs o w0) w = (r, w') →
  (∀ q, q ∉ outputs o w0 → files w' !! q = files w !! q)
  ∧ (∀ q, is_Some (files w !! q) → is_Some (files w' !! q))
  ∧ (∀ e, r = Throw e → ∃ p w1, p ∈ inputs o w0 ∧ compiled o w1 p = Throw e)
  ∧ (∀ e, flow_is_f 1 o = true → r = Throw e → files w' = files w).
Proof.
  intros Hd. unfold process. destruct (flow_is_f 1 o) eqn:Hf.
  - assert (to o ∈ outputs o w0) as Hto.
    { rewrite outputs_single; [|done]. by apply list_elem_of_singleton. }
    destruct (compiled_cases o w (inputs o w0))
      as [[js Hjs]|(pre & q & post & js & e & Heq & Hpre & Hq)].
    + rewrite (toFile_Ok _ _ js _ (to o));
        [|by rewrite outputs_single|by apply Hd|done].
      intros [= <- <-]. simpl. split_and!.
      * intros q Hq. apply lookup_insert_ne. intros Heq. apply Hq. by rewrite <- Heq.
      * intros q Hq. destruct (decide (to o = q)) as [->|Hne].
        -- rewrite lookup_insert_eq. eauto.
        -- by rewrite lookup_insert_ne.
      * intros e [=].
      * intros e _ [=].
    + rewrite (toFile_Throw _ _ pre post js _ q e); [|done..].
      intros [= <- <-]. split_and!; [done..| |done].
      intros e' [= <-]. exists q, w. split; [|done].
      rewrite Heq. apply elem_of_app. right. left.
  - rewrite toDir_mirrored; [|done]. rewrite bind_run.
    destruct (mapM_from _ 0 (inputs o w0) w) as [rest w1] eqn:Hloop.
    apply write_loop_effects in Hloop as (H1 & H2 & H3).
    + rewrite outputs_mirrored by done.
      destruct rest as [ys|e]; intros [= <- <-]; split_and!; try done.
      intros e' [= <-]. by apply H3.
    + intros p Hp. apply Hd. rewrite outputs_mirrored; [|done].
      apply list_elem_of_fmap. eauto.
Qed.

(** The parts of a pass after [init], with what they leave behind. *)
Lemma make_run (opt o : Opt) (w : World) :
  init w opt = Ok o →
  ∃ r W1, process o (inputs o w) (outputs o w) (with_dirs o w) = (r, W1)
    ∧ match r with
      | Ok _ => ∃ w', make opt w = (Ok o, w') ∧ files w' = files W1 ∧ dirs w' = dirs W1
      | Throw e => make opt w = (Throw e, W1)
      end.
Proof.
  intros Hinit. rewrite (make_steps _ o); [|done].
  destruct (process o (inputs o w) (outputs o w) (with_dirs o w)) as [r W1] eqn:Hproc.
  exists r, W1. split; [done|]. rewrite bind_run, Hproc.
  destruct r as [[]|e]; [|done]. apply finish_Ok.
Qed.

(** X6. A pass, whether it ends normally or not, removes no file, and
    leaves every path that is not one of its resolved outputs as it was. *)
Theorem only_outputs_touched (opt : Opt) (w : World) :
  (∀ q, is_Some (files w !! q) → is_Some (files (make opt w).2 !! q))
  ∧ ∀ o q, init w opt = Ok o → q ∉ outputs o w →
           files (make opt w).2 !! q = files w !! q.
Proof.
  destruct (init w opt) as [o|msg] eqn:Hinit.
  - destruct (make_run opt o w Hinit) as (r & W1 & Hproc & Hmake).
    apply process_effects in Hproc as (H1 & H2 & _);
      [|intros q Hq; by apply dirs_with_dirs].
    assert (files (make opt w).2 = files W1) as ->.
    { destruct r; [by destruct Hmake as (w' & -> & ? & _)|by rewrite Hmake]. }
    split; [exact H2|]. intros o' q [= <-] Hq. by apply H1.
  - rewrite (make_init_error _ _ msg); [|done]. split; [done|]. intros o q [=].
Qed.

(** X7. A pass that gets past [init] ends, normally or not, with exactly
    the directories there were before, the directories of its resolved
    outputs and the directories [mkdir -p] creates above those. *)
Theorem pass_directories (opt o : Opt) (w : World) (d : string) :
  init w opt = Ok o →
  d ∈ dirs (make opt w).2
  ↔ d ∈ dirs w ∨ ∃ q, q ∈ outputs o w ∧ (d = dirname q ∨ d ∈ ancestors (dirname q)).
Proof.
  intros Hinit.
  destruct (make_run opt o w Hinit) as (r & W1 & Hproc & Hmake).
  apply process_frame in Hproc as (Hdirs & _ & _);
    [|intros q Hq; by apply dirs_with_dirs].
  assert (dirs (make opt w).2 = dirs (with_dirs o w)) as ->.
  { rewrite <- Hdirs.
    destruct r; [by destruct Hmake as (w' & -> & _ & ?)|by rewrite Hmake]. }
  unfold with_dirs, sh_mkdir_p. cbn [snd dirs set_dirs].
  rewrite elem_of_union, elem_of_list_to_set, elem_of_app, list_elem_of_bind.
  setoid_rewrite keys_dirs_of. setoid_rewrite list_elem_of_fmap.
  split.
  - intros [?|[(q & -> & Hq)|(d' & Hd & q & -> & Hq)]]; eauto 6.
  - intros [?|(q & Hq & [->|Hd])]; eauto 8.
Qed.

Lemma make_throw_frame (opt : Opt) (w w' : World) (e : exn CErr) :
  make opt w = (Throw e, w') →
  out w' = out w
  ∧ ∀ o, init w opt = Ok o → flow_is_f 1 o = true → files w' = files w.
Proof.
  destruct (init w opt) as [o|msg] eqn:Hinit.
  - destruct (make_run opt o w Hinit) as (r & W1 & Hproc & Hmake).
    destruct r as [[]|e'].
    { destruct Hmake as (w1 & -> & _). intros [=]. }
    rewrite Hmake. intros [= <- <-].
    pose proof Hproc as Hframe.
    apply process_frame in Hframe as (_ & Hout & _);
      [|intros q Hq; by apply dirs_with_dirs].
    apply process_effects in Hproc as (_ & _ & _ & Hfiles);
      [|intros q Hq; by apply dirs_with_dirs].
    split; [done|]. intros o' [= <-] Hf. by apply (Hfiles e').
  - rewrite (make_init_error _ _ msg); [|done]. by intros [= <- <-].
Qed.

(** X8. A pass that ends with an exception has printed nothing, and with
    a single-file target it has changed no file either. *)
Theorem failed_pass (opt : Opt) (w w' : World) (e : exn CErr) :
  make opt w = (Throw e, w') →
  out w' = out w
  ∧ ∀ o, init w opt = Ok o → flow_is_f 1 o = true → files w' = files w.
Proof. apply make_throw_frame. Qed.

(** X9. The only exceptions a pass can end with are the one [init] threw,
    an error of the compiler, and the failure to read one of the inputs:
    no output path is ever undefined and no write fails. *)
Theorem pass_exceptions (opt : Opt) (w : World) (e : exn CErr) :
  (make opt w).1 = Throw e → pass_error opt w e.
Proof.
  destruct (init w opt) as [o|msg] eqn:Hinit.
  - destruct (make_run opt o w Hinit) as (r & W1 & Hproc & Hmake).
    destruct r as [[]|e'].
    { destruct Hmake as (w1 & -> & _). intros [=]. }
    rewrite Hmake. intros [= <-].
    apply process_effects in Hproc as (_ & _ & Herr & _);
      [|intros q Hq; by apply dirs_with_dirs].
    destruct (Herr e' eq_refl) as (p & w1 & Hp & Hc).
    apply compiled_error_shape in Hc as [[c ->]| ->]; simpl; [done|].
    exists o. by rewrite Hinit.
  - rewrite (make_init_error _ _ msg); [|done]. intros [= <-]. simpl. done.
Qed.

(** ** More about watching *)

Lemma bind_ext {E A B} (m : M E A) (k k' : A → M E B) (w : World) :
  (∀ a w1, k a w1 = k' a w1) → bind m k w = bind m k' w.
Proof. intros H. unfold bind. by destruct (m w) as [[a|e] w1]. Qed.

Section WatchingFacts.

Variable join : string → string → string.

(** X11. The files announced by the first scan change nothing wherever
    they stand in the stream: the stream without them is handled the same
    way. *)
Theorem deliver_ignores_initial (glob : string) (evs : list FsEvent) (o : Opt) (w : World) :
  deliver glob evs o w
  = deliver glob (List.filter (λ ev, match ev with
                                     | InitialAdd _ => false
                                     | _ => true
                                     end) evs) o w.
Proof.
  revert o w. induction evs as [|ev evs IH]; intros o w; [done|].
  destruct ev as [p| |p]; simpl.
  - rewrite bind_run. unfold ret at 1. apply IH.
  - apply bind_ext. intros o1 w1. apply IH.
  - apply bind_ext. intros o1 w1. apply IH.
Qed.

(** X12. When [init] or the first pass of [watch] ends with an exception,
    so does [watch], in the same world: the watcher is not started, no
    event is handled, and nothing at all has been printed, neither a
    report nor the line that says watching has started. *)
Theorem watch_needs_first_pass (opt : Opt) (stream : string → list FsEvent)
    (w w' : World) (e : exn CErr) :
  (let! o := init_ opt in make o) w = (Throw e, w') →
  watch join opt stream w = (Throw e, w') ∧ out w' = out w.
Proof.
  unfold watch. rewrite !bind_run. unfold init_ at 1 2.
  destruct (init w opt) as [o|msg]; [|by intros [= <- <-]].
  rewrite bind_run. destruct (make o w) as [[o'|e1] w1] eqn:Hmake; [done|].
  intros [= <- <-]. split; [done|]. by apply make_throw_frame in Hmake as [? _].
Qed.

End WatchingFacts.

(** ** Checking *)

Section CheckingFacts.

Variable analyzer : string → list AnalyzerResult.
Variable glue : list string → string.
Variable white_bgRed : string → string.
Variable gray : string → string.
Variable red : string → string.
Variable green : string → string.

Lemma sh_cat_loop (paths texts : list string) (i : nat) (w : World) :
  Forall2 (λ p t, files w !! p = Some t) paths texts →
  mapM_from (λ path _, sh_cat path) i paths w = (Ok texts, w).
Proof.
  intros H. revert i. induction H as [|p t paths texts Hp _ IH]; intros i; simpl; [done|].
  rewrite bind_run. unfold sh_cat at 1. rewrite Hp. rewrite bind_run. by rewrite IH.
Qed.

Lemma sh_cat_loop_world (paths : list string) (i : nat) (w w' : World)
    (r : result (exn CErr) (list string)) :
  mapM_from (λ path _, sh_cat path) i paths w = (r, w') → w' = w.
Proof.
  revert i r w'. induction paths as [|p paths IH]; intros i r w'; simpl.
  - by intros [= _ <-].
  - rewrite bind_run. unfold sh_cat at 1. destruct (files w !! p).
    + rewrite bind_run.
      destruct (mapM_from _ (S i) paths w) as [[ts|e] w1] eqn:Hrest;
        apply IH in Hrest as ->; by intros [= _ <-].
    + by intros [= _ <-].
Qed.

Lemma sh_cat_all_run (paths texts : list string) (w : World) :
  Forall2 (λ p t, files w !! p = Some t) paths texts →
  sh_cat_all glue paths w = (Ok (glue texts), w).
Proof.
  intros H. unfold sh_cat_all, mapM. rewrite bind_run.
  by rewrite (sh_cat_loop _ texts).
Qed.

Lemma sh_cat_all_world (paths : list string) (w w' : World) (r : result (exn CErr) string) :
  sh_cat_all glue paths w = (r, w') → w' = w.
Proof.
  unfold sh_cat_all, mapM. rewrite bind_run.
  destruct (mapM_from _ 0 paths w) as [[ts|e] w1] eqn:Hloop;
    apply sh_cat_loop_world in Hloop as ->; by intros [= _ <-].
Qed.

Lemma complain_loop (errs : list AnalyzerResult) (i : nat) (w : World) :
  mapM_from (λ result _, complain gray red result) i errs w
  = (Ok (map (λ _, tt) errs), set_out (out w ++ (errs ≫= complaint gray red)) w).
Proof.
  revert i w. induction errs as [|r errs IH]; intros i w; simpl.
  - unfold ret. by rewrite set_out_nil.
  - rewrite bind_run. unfold complain at 1. rewrite bind_run.
    unfold log at 1 2. rewrite bind_run, IH. unfold ret. simpl.
    unfold set_out. simpl. by rewrite <- !app_assoc.
Qed.

(** What [check] prints for the faults [errs]. *)
Lemma verdict_run (errs : list AnalyzerResult) (w : World) :
  (if negb (Nat.eqb (length errs) 0) then
     log (white_bgRed " Riot Tag Syntax Error ") ;;
     mapM (λ result _, complain gray red result) errs ;;
     log (gray ("Total error: " +:+ pretty (length errs)))
   else
     log (green "No syntax error. Ready to compile :)")) w
  = (Ok tt,
     set_out (out w ++ match errs with
                       | [] => [green "No syntax error. Ready to compile :)"]
                       | _ => white_bgRed " Riot Tag Syntax Error "
                              :: (errs ≫= complaint gray red)
                              ++ [gray ("Total error: " +:+ pretty (length errs))]
                       end) w).
Proof.
  destruct errs as [|r errs]; [done|].
  cbn [length Nat.eqb negb]. rewrite bind_run. unfold log at 1.
  rewrite bind_run. unfold mapM. rewrite complain_loop. unfold log.
  simpl. unfold set_out. simpl. by rewrite <- !app_assoc.
Qed.

Lemma check_frame (opt : Opt) (w w' : World) (r : result (exn CErr) Opt) :
  check analyzer glue white_bgRed gray red green opt w = (r, w') →
  files w' = files w ∧ dirs w' = dirs w.
Proof.
  unfold check. rewrite bind_run. unfold init_ at 1.
  destruct (init w opt) as [o|msg]; [|by intros [= _ <-]].
  rewrite bind_run.
  assert ((if flow_is_f 0 o then ret [from o] else sh_find (from o)) w
          = (Ok (inputs o w), w)) as -> by (unfold inputs; by destruct (flow_is_f 0 o)).
  rewrite bind_run.
  destruct (sh_cat_all glue (inputs o w) w) as [[text|e] w1] eqn:Hcat;
    apply sh_cat_all_world in Hcat as ->; [|by intros [= _ <-]].
  rewrite bind_run, verdict_run. by intros [= _ <-].
Qed.

(** X13. [check] reads and prints only: whatever it is given and however
    it ends, no file and no directory has changed. *)
Theorem check_never_writes (opt : Opt) (w : World) :
  files (check analyzer glue white_bgRed gray red green opt w).2 = files w
  ∧ dirs (check analyzer glue white_bgRed gray red green opt w).2 = dirs w.
Proof.
  destruct (check analyzer glue white_bgRed gray red green opt w) as [r w'] eqn:Hrun.
  by apply check_frame in Hrun.
Qed.

Lemma sh_cat_loop_error (paths : list string) (i : nat) (w w' : World) (e : exn CErr) :
  mapM_from (λ path _, sh_cat path) i paths w = (Throw e, w') →
  ∃ p, p ∈ paths ∧ files w !! p = None ∧ e = NoSuchFile p.
Proof.
  revert i. induction paths as [|p paths IH]; intros i; simpl; [done|].
  rewrite bind_run. unfold sh_cat at 1. destruct (files w !! p) eqn:Hp.
  - rewrite bind_run.
    destruct (mapM_from _ (S i) paths w) as [[ts|e1] w1] eqn:Hrest; [done|].
    pose proof (sh_cat_loop_world _ _ _ _ _ Hrest) as ->.
    intros [= -> <-]. destruct (IH _ Hrest) as (q & Hq & Hnone & ->).
    exists q. split; [by right|done].
  - intros [= <- <-]. exists p. split; [left|done].
Qed.

(** X14. When [check] ends with an exception it has printed nothing and
    the world is as it was; the exception is the one [init] threw, or says
    that one of the inputs could not be read. *)
Theorem check_failure (opt : Opt) (w w' : World) (e : exn CErr) :
  check analyzer glue white_bgRed gray red green opt w = (Throw e, w') →
  w' = w
  ∧ ((∃ msg, init w opt = Throw msg ∧ e = InitError msg)
     ∨ (∃ o p, init w opt = Ok o ∧ p ∈ inputs o w ∧ files w !! p = None
               ∧ e = NoSuchFile p)).
Proof.
  unfold check. rewrite bind_run. unfold init_ at 1.
  destruct (init w opt) as [o|msg]; [|intros [= <- <-]; split; [done|left; eauto]].
  rewrite bind_run.
  assert ((if flow_is_f 0 o then ret [from o] else sh_find (from o)) w
          = (Ok (inputs o w), w)) as -> by (unfold inputs; by destruct (flow_is_f 0 o)).
  rewrite bind_run. unfold sh_cat_all at 1, mapM. rewrite bind_run.
  destruct (mapM_from _ 0 (inputs o w) w) as [[ts|e1] w1] eqn:Hloop.
  - pose proof (sh_cat_loop_world _ _ _ _ _ Hloop) as ->. unfold ret at 1.
    rewrite bind_run, verdict_run. intros [=].
  - pose proof (sh_cat_loop_world _ _ _ _ _ Hloop) as ->.
    intros [= <- <-]. split; [done|]. right.
    destruct (sh_cat_loop_error _ _ _ _ _ Hloop) as (p & Hp & Hnone & ->).
    exists o, p. done.
Qed.

Lemma check_run (opt o : Opt) (w : World) (texts : list string) :
  init w opt = Ok o →
  Forall2 (λ p t, files w !! p = Some t) (inputs o w) texts →
  check analyzer glue white_bgRed gray red green opt w
  = (Ok o,
     set_out (out w ++ match faults analyzer glue texts with
                       | [] => [green "No syntax error. Ready to compile :)"]
                       | _ => white_bgRed " Riot Tag Syntax Error "
                              :: (faults analyzer glue texts ≫= complaint gray red)
                              ++ [gray ("Total error: "
                                        +:+ pretty (length (faults analyzer glue texts)))]
                       end) w).
Proof.
  intros Hinit Htexts. unfold check. rewrite bind_run. unfold init_ at 1. rewrite Hinit.
  rewrite bind_run.
  assert ((if flow_is_f 0 o then ret [from o] else sh_find (from o)) w
          = (Ok (inputs o w), w)) as -> by (unfold inputs; by destruct (flow_is_f 0 o)).
  rewrite bind_run, (sh_cat_all_run _ texts) by done.
  rewrite bind_run. fold (faults analyzer glue texts). by rewrite verdict_run.
Qed.

(** X15. When the analyzer finds no fault in the texts of the inputs, taken
    together as one text, [check] ends normally having printed one line,
    the one that says so. *)
Theorem check_clean (opt o : Opt) (w : World) (texts : list string) :
  init w opt = Ok o →
  Forall2 (λ p t, files w !! p = Some t) (inputs o w) texts →
  faults analyzer glue texts = [] →
  check analyzer glue white_bgRed gray red green opt w
  = (Ok o, set_out (out w ++ [green "No syntax error. Ready to compile :)"]) w).
Proof.
  intros Hinit Htexts Hnone. rewrite (check_run _ o _ texts) by done. by rewrite Hnone.
Qed.

(** X16. When it finds faults, [check] still ends normally, and prints the
    heading, then for each fault, in the analyzer's order, the line with
    its number and source and the line with its message, then the number
    of faults: two lines more than twice that number.  Results without an
    error do not show. *)
Theorem check_errors (opt o : Opt) (w : World) (texts : list string) :
  init w opt = Ok o →
  Forall2 (λ p t, files w !! p = Some t) (inputs o w) texts →
  faults analyzer glue texts ≠ [] →
  ∃ w', check analyzer glue white_bgRed gray red green opt w = (Ok o, w')
        ∧ out w' = out w ++ white_bgRed " Riot Tag Syntax Error "
                           :: (faults analyzer glue texts ≫= complaint gray red)
                           ++ [gray ("Total error: "
                                     +:+ pretty (length (faults analyzer glue texts)))]
        ∧ length (out w') = length (out w) + 2 * length (faults analyzer glue texts) + 2
        ∧ files w' = files w.
Proof.
  intros Hinit Htexts Hsome. rewrite (check_run _ o _ texts) by done.
  eexists. split; [done|]. simpl.
  destruct (faults analyzer glue texts) as [|r errs] eqn:Hfaults; [done|].
  split_and!; [done| |done].
  rewrite length_app. cbn [length]. rewrite length_app. cbn [length].
  assert (∀ l : list AnalyzerResult, length (l ≫= complaint gray red) = 2 * length l) as Hlen.
  { induction l as [|x l IH]; [done|]. cbn [mbind list_bind] in *.
    rewrite length_app. cbn [length complaint]. rewrite IH. simpl. lia. }
  rewrite (Hlen (r :: errs)). cbn [length]. lia.
Qed.

(** ** The command line *)

Section CliFacts.

Variable version_string : string.
Variable join : string → string → string.
Variable on_number : string → Args → (string → list FsEvent) → JS unit.

(** X17. Which method [cli] calls: the first of help, version, make, watch
    and check whose flag is set, whatever the other flags are; without
    any of them, make when the first argument holds as a condition (a text
    that is not empty, or a number that is not zero) and help when it does
    not or there is none.  Make, watch and check get the options built
    from the arguments. *)
Theorem cli_dispatch (args : Args) (stream : string → list FsEvent) (w : World) :
  cli analyzer glue white_bgRed gray red green version_string join on_number
      args stream w
  = (if arg_help args then help
     else if arg_version args then version version_string
     else if arg_make args then
       match opts_of args with
       | Some opts => make opts ;; ret tt
       | None => on_number "make" args stream
       end
     else if arg_watch args then
       match opts_of args with
       | Some opts => watch join opts stream ;; ret tt
       | None => on_number "watch" args stream
       end
     else if arg_check args then
       match opts_of args with
       | Some opts => check analyzer glue white_bgRed gray red green opts ;; ret tt
       | None => on_number "check" args stream
       end
     else match arg_positional args !! 0 with
          | Some (ArgString (String _ _)) =>
              match opts_of args with
              | Some opts => make opts ;; ret tt
              | None => on_number "make" args stream
              end
          | Some (ArgNumber (Finite q)) =>
              if Qeq_bool q 0 then help else on_number "make" args stream
          | Some (ArgNumber (Infinite _)) => on_number "make" args stream
          | Some (ArgString "") | None => help
          end) w.
Proof.
  unfold cli, method_of, method_keys. cbn [List.filter].
  unfold arg_flag. cbn [bool_decide decide_rel].
  destruct (arg_help args); [done|].
  destruct (arg_version args); [done|].
  destruct (arg_make args); [done|].
  destruct (arg_watch args); [done|].
  destruct (arg_check args); [done|].
  unfold opts_of.
  destruct (arg_positional args) as [|[[|c s]|[q|neg]] rest]; cbn; try done.
  by destruct (Qeq_bool q 0).
Qed.

(** X18. With the help flag set, [cli] prints the help text, once, and
    does nothing else, whatever sources and other flags are given: no
    file is read or written and no directory is made. *)
Theorem cli_help_wins (args : Args) (stream : string → list FsEvent) (w : World) :
  arg_help args = true →
  cli analyzer glue white_bgRed gray red green version_string join on_number
      args stream w
  = (Ok tt, set_out (out w ++ [help_text]) w).
Proof.
  intros Hhelp. unfold cli, method_of, method_keys. cbn [List.filter].
  unfold arg_flag at 1. cbn [bool_decide decide_rel]. by rewrite Hhelp.
Qed.

End CliFacts.

End CheckingFacts.

End Build.


(** ** The theorems at work on the small installation *)

Abbreviation demo_make :=
  (make demo_compile demo_init demo_find demo_mirror demo_toRelative
        demo_dirname demo_ancestors).

Abbreviation demo_concat := (demo_opt false false "src" "all.js" "df").
Abbreviation demo_mirrored := (demo_opt false false "src" "out" "dd").

(** [demo_world] with the second tag file replaced by a text the compiler
    rejects. *)
Abbreviation broken_world :=
  (set_files (<["src/b.tag" := "bad"]> (files demo_world)) demo_world).

Ltac by_computation := vm_compute; reflexivity.
Ltac each_pair := repeat (constructor; [by_computation|]); constructor.
Ltac is_element := refine (bool_decide_unpack _ _); vm_compute; exact I.
Ltac each_element :=
  apply Forall_forall; refine (bool_decide_unpack _ _); vm_compute; exact I.

Lemma single_file_concatenation_witness :
  ∃ w', demo_make demo_concat demo_world = (Ok demo_concat, w')
        ∧ files w' = <["all.js" := "<A>" +:+ String "010"%char "<B>"]> (files demo_world).
Proof.
  apply (single_file_concatenation demo_compile demo_init demo_find demo_mirror
           demo_toRelative demo_dirname demo_ancestors
           demo_concat demo_concat demo_world ["<A>"; "<B>"]).
  - reflexivity.
  - by_computation.
  - reflexivity.
  - each_pair.
Defined.

Lemma compile_error_aborts_witness :
  ∃ w', demo_make demo_mirrored broken_world
        = (Throw (CompileError "unexpected token"), w')
        ∧ out w' = []
        ∧ files w' = <["out/a.js" := "<A>"]> (files broken_world).
Proof.
  apply (compile_error_aborts demo_compile demo_init demo_find demo_mirror
           demo_toRelative demo_dirname demo_ancestors
           demo_mirrored demo_mirrored broken_world
           ["src/a.tag"] [] ["<A>"] "src/b.tag" "bad" "unexpected token").
  - reflexivity.
  - by_computation.
  - each_pair.
  - by_computation.
  - by_computation.
  - intros _. each_element.
Defined.

Lemma encapsulate_roundtrip_witness :
  encapsulate (demo_opt false false "a.tag" "a.js" "ff") "riot.tag('x', '<p>{ a }</p>')"
  = "riot.tag('x', '<p>{ a }</p>')"
  ∧ balanced (encapsulate (demo_opt true false "a.tag" "a.js" "ff")
                          "riot.tag('x', '<p>{ a }</p>')") = true.
Proof.
  split.
  - exact (encapsulate_roundtrip (demo_opt false false "a.tag" "a.js" "ff")
             "riot.tag('x', '<p>{ a }</p>')").
  - apply (encapsulate_roundtrip (demo_opt true false "a.tag" "a.js" "ff")
             "riot.tag('x', '<p>{ a }</p>')").
    by_computation.
Defined.

(** C4 does not hold for a single-file target: the directory [empty] holds
    no tag file, and the pass to [all.js] ends normally and creates that
    file, empty. *)
Lemma empty_tree_writes_target :
  flow_is_f 0 (demo_opt false false "empty" "all.js" "df") = false
  ∧ demo_find demo_world "empty" = []
  ∧ files demo_world !! "all.js" = None
  ∧ (demo_make (demo_opt false false "empty" "all.js" "df") demo_world).1
    = Ok (demo_opt false false "empty" "all.js" "df")
  ∧ files (demo_make (demo_opt false false "empty" "all.js" "df") demo_world).2
      !! "all.js" = Some ""
  ∧ files (demo_make (demo_opt false false "empty" "all.js" "df") demo_world).2
    ≠ files demo_world.
Proof.
  split_and!; try by_computation.
  intros Hsame. apply (f_equal (λ m : gmap string string, m !! "all.js")) in Hsame.
  vm_compute in Hsame. discriminate.
Qed.

Lemma empty_tree_pass_witness :
  ∃ w', demo_make (demo_opt false false "empty" "all.js" "df") demo_world
        = (Ok (demo_opt false false "empty" "all.js" "df"), w')
        ∧ out w' = []
        ∧ files w' = <["all.js" := ""]> (files demo_world).
Proof.
  apply (empty_tree_pass demo_compile demo_init demo_find demo_mirror
           demo_toRelative demo_dirname demo_ancestors
           (demo_opt false false "empty" "all.js" "df")
           (demo_opt false false "empty" "all.js" "df") demo_world).
  - reflexivity.
  - by_computation.
  - by_computation.
Defined.

Lemma watch_rebuilds_witness :
  watch demo_compile demo_init demo_find demo_mirror demo_toRelative
        demo_dirname demo_ancestors demo_join demo_mirrored
        (λ _, [InitialAdd "src/a.tag"; InitialAdd "src/b.tag"; Ready;
               Change "src/a.tag"; Change "src/b.tag"]) demo_world
  = (let! o := init_ demo_init demo_mirrored in
     let! o := demo_make o in
     log "Watching src/**/*.tag" ;;
     passes demo_compile demo_init demo_find demo_mirror demo_toRelative
            demo_dirname demo_ancestors 2 o) demo_world.
Proof.
  apply (watch_rebuilds demo_compile demo_init demo_find demo_mirror
           demo_toRelative demo_dirname demo_ancestors demo_join demo_mirrored
           (λ _, [InitialAdd "src/a.tag"; InitialAdd "src/b.tag"; Ready;
                  Change "src/a.tag"; Change "src/b.tag"])
           (λ _, ["src/a.tag"; "src/b.tag"]) (λ _, ["src/a.tag"; "src/b.tag"])
           demo_world).
  intros glob. reflexivity.
Defined.

Lemma parse_strips_BOM_witness :
  parse demo_compile demo_concat "src/b.tag" demo_world = (Ok "<B>", demo_world).
Proof.
  refine (proj1 (parse_strips_BOM demo_compile demo_concat "src/b.tag" "B"
                   demo_world _)).
  by_computation.
Defined.

Lemma directories_before_writes_witness :
  (∀ d, (demo_make demo_mirrored demo_world).1 ≠ Throw (NoSuchDir d))
  ∧ "out" ∈ dirs (demo_make demo_mirrored demo_world).2.
Proof.
  destruct (directories_before_writes demo_compile demo_init demo_find demo_mirror
              demo_toRelative demo_dirname demo_ancestors demo_mirrored demo_world)
    as [Hnever Hdirs].
  split; [exact Hnever|].
  refine (proj2 (Hdirs demo_mirrored "out/a.js" _ _)).
  - reflexivity.
  - is_element.
Defined.


Lemma rebuild_same_files_witness :
  ∃ w2, demo_make demo_mirrored (demo_make demo_mirrored demo_world).2
        = (Ok demo_mirrored, w2)
        ∧ files w2 = files (demo_make demo_mirrored demo_world).2.
Proof.
  apply (rebuild_same_files demo_compile demo_init demo_find demo_mirror
           demo_toRelative demo_dirname demo_ancestors
           demo_mirrored demo_mirrored demo_world
           (demo_make demo_mirrored demo_world).2 (Ok demo_mirrored)).
  - reflexivity.
  - by_computation.
  - reflexivity.
  - reflexivity.
  - each_element.
Defined.

Lemma single_file_atomic_witness :
  ∃ e' w', demo_make demo_concat broken_world = (Throw e', w')
           ∧ files w' = files broken_world ∧ out w' = out broken_world.
Proof.
  apply (single_file_atomic demo_compile demo_init demo_find demo_mirror
           demo_toRelative demo_dirname demo_ancestors
           demo_concat demo_concat broken_world
           "src/b.tag" "bad" "unexpected token").
  - reflexivity.
  - by_computation.
  - is_element.
  - by_computation.
  - by_computation.
Defined.

(** ** More of the theorems at work *)

Abbreviation demo_check :=
  (check (CErr := string) demo_init demo_find demo_analyzer demo_glue
         demo_colour demo_colour demo_colour demo_colour).

Abbreviation demo_cli :=
  (cli demo_compile demo_cli_init demo_find demo_mirror demo_toRelative
       demo_dirname demo_ancestors demo_analyzer demo_glue
       demo_colour demo_colour demo_colour demo_colour demo_version demo_join
       (λ _ _ _, throw TypeError)).

(** [demo_world] without any file: the tag files [demo_find] lists cannot
    be read. *)
Abbreviation empty_world := (set_files ∅ demo_world).

Ltac decided := refine (bool_decide_unpack _ _); vm_compute; exact I.

Lemma mirrored_pass_witness :
  ∃ w', demo_make demo_mirrored demo_world = (Ok demo_mirrored, w')
        ∧ files w' = <["out/b.js" := "<B>"]> (<["out/a.js" := "<A>"]> (files demo_world)).
Proof.
  apply (mirrored_pass demo_compile demo_init demo_find demo_mirror
           demo_toRelative demo_dirname demo_ancestors
           demo_mirrored demo_mirrored demo_world ["<A>"; "<B>"]).
  - reflexivity.
  - by_computation.
  - each_pair.
  - each_element.
Defined.

Lemma mirrored_each_output_witness :
  files (demo_make demo_mirrored demo_world).2 !! "out/b.js" = Some "<B>".
Proof.
  apply (mirrored_each_output demo_compile demo_init demo_find demo_mirror
           demo_toRelative demo_dirname demo_ancestors
           demo_mirrored demo_mirrored demo_world ["<A>"; "<B>"]
           1 "src/b.tag" "<B>").
  - reflexivity.
  - by_computation.
  - each_pair.
  - each_element.
  - decided.
  - reflexivity.
  - reflexivity.
Defined.

Lemma single_file_wrapped_once_witness :
  ∃ w', demo_make (demo_opt true false "src" "all.js" "df") demo_world
        = (Ok (demo_opt true false "src" "all.js" "df"), w')
        ∧ files w' = <["all.js" := shim_head +:+ join_nl ["<A>"; "<B>"] +:+ shim_tail]>
                       (files demo_world).
Proof.
  apply (single_file_wrapped_once demo_compile demo_init demo_find demo_mirror
           demo_toRelative demo_dirname demo_ancestors
           (demo_opt true false "src" "all.js" "df")
           (demo_opt true false "src" "all.js" "df") demo_world ["<A>"; "<B>"]).
  - reflexivity.
  - by_computation.
  - each_pair.
Defined.

Lemma only_outputs_touched_witness :
  files (demo_make demo_mirrored broken_world).2 !! "src/a.tag"
  = files broken_world !! "src/a.tag".
Proof.
  refine (proj2 (only_outputs_touched demo_compile demo_init demo_find demo_mirror
                   demo_toRelative demo_dirname demo_ancestors
                   demo_mirrored broken_world) demo_mirrored "src/a.tag" _ _).
  - reflexivity.
  - decided.
Defined.

Lemma pass_directories_witness :
  "out" ∈ dirs (demo_make demo_mirrored broken_world).2
  ↔ "out" ∈ dirs broken_world
    ∨ ∃ q, q ∈ outputs demo_find demo_mirror demo_dirname demo_mirrored broken_world
           ∧ ("out" = demo_dirname q ∨ "out" ∈ demo_ancestors (demo_dirname q)).
Proof.
  apply (pass_directories demo_compile demo_init demo_find demo_mirror
           demo_toRelative demo_dirname demo_ancestors
           demo_mirrored demo_mirrored broken_world "out").
  reflexivity.
Defined.

Lemma failed_pass_witness :
  out (demo_make demo_concat broken_world).2 = out broken_world
  ∧ ∀ o, demo_init broken_world demo_concat = Ok o → flow_is_f 1 o = true →
         files (demo_make demo_concat broken_world).2 = files broken_world.
Proof.
  apply (failed_pass demo_compile demo_init demo_find demo_mirror
           demo_toRelative demo_dirname demo_ancestors
           demo_concat broken_world (demo_make demo_concat broken_world).2
           (CompileError "unexpected token")).
  by_computation.
Defined.

Lemma pass_exceptions_witness :
  pass_error demo_init demo_find demo_mirrored empty_world
    (NoSuchFile (CErr := string) "src/a.tag").
Proof.
  apply (pass_exceptions demo_compile demo_init demo_find demo_mirror
           demo_toRelative demo_dirname demo_ancestors
           demo_mirrored empty_world (NoSuchFile "src/a.tag")).
  by_computation.
Defined.

Lemma encapsulate_inj_witness :
  "riot.tag('x')" = "riot.tag('x')".
Proof.
  apply (encapsulate_inj (demo_opt true false "a.tag" "a.js" "ff")
           "riot.tag('x')" "riot.tag('x')").
  reflexivity.
Defined.

Lemma watch_needs_first_pass_witness :
  watch demo_compile demo_init demo_find demo_mirror demo_toRelative
        demo_dirname demo_ancestors demo_join demo_concat
        (λ _, [Ready; Change "src/a.tag"]) broken_world
  = (Throw (CompileError "unexpected token"),
     ((let! o := init_ demo_init demo_concat in demo_make o) broken_world).2)
  ∧ out ((let! o := init_ demo_init demo_concat in demo_make o) broken_world).2
    = out broken_world.
Proof.
  apply (watch_needs_first_pass demo_compile demo_init demo_find demo_mirror
           demo_toRelative demo_dirname demo_ancestors demo_join demo_concat
           (λ _, [Ready; Change "src/a.tag"]) broken_world).
  by_computation.
Defined.

Lemma check_clean_witness :
  demo_check (demo_opt false false "src/a.tag" "" "fd") demo_world
  = (Ok (demo_opt false false "src/a.tag" "" "fd"),
     set_out ["No syntax error. Ready to compile :)"] demo_world).
Proof.
  apply (check_clean demo_init demo_find demo_analyzer demo_glue
           demo_colour demo_colour demo_colour demo_colour
           (demo_opt false false "src/a.tag" "" "fd")
           (demo_opt false false "src/a.tag" "" "fd") demo_world ["A"]).
  - reflexivity.
  - each_pair.
  - by_computation.
Defined.

Lemma check_errors_witness :
  ∃ w', demo_check (demo_opt false false "src/b.tag" "" "fd") broken_world
        = (Ok (demo_opt false false "src/b.tag" "" "fd"), w')
        ∧ out w' = [" Riot Tag Syntax Error "; "2| bad"; "^^^ unexpected token";
                    "Total error: 1"]
        ∧ length (out w') = 4
        ∧ files w' = files broken_world.
Proof.
  apply (check_errors demo_init demo_find demo_analyzer demo_glue
           demo_colour demo_colour demo_colour demo_colour
           (demo_opt false false "src/b.tag" "" "fd")
           (demo_opt false false "src/b.tag" "" "fd") broken_world ["bad"]).
  - reflexivity.
  - each_pair.
  - vm_compute. discriminate.
Defined.

Lemma cli_help_wins_witness :
  demo_cli (demo_args true false true false [ArgString "src"; ArgString "out"])
           (λ _, [Ready; Change "src/a.tag"]) demo_world
  = (Ok tt, set_out [help_text] demo_world).
Proof.
  apply (cli_help_wins demo_compile demo_cli_init demo_find demo_mirror
           demo_toRelative demo_dirname demo_ancestors demo_analyzer demo_glue
           demo_colour demo_colour demo_colour demo_colour demo_version demo_join
           (λ _ _ _, throw TypeError)
           (demo_args true false true false [ArgString "src"; ArgString "out"])
           (λ _, [Ready; Change "src/a.tag"]) demo_world).
  reflexivity.
Defined.

Lemma check_failure_witness :
  (demo_check (demo_opt false false "src" "" "dd") empty_world).2 = empty_world
  ∧ ((∃ msg, demo_init empty_world (demo_opt false false "src" "" "dd") = Throw msg
             ∧ NoSuchFile (CErr := string) "src/a.tag" = InitError msg)
     ∨ (∃ o p, demo_init empty_world (demo_opt false false "src" "" "dd") = Ok o
               ∧ p ∈ inputs demo_find o empty_world
               ∧ files empty_world !! p = None
               ∧ NoSuchFile (CErr := string) "src/a.tag" = NoSuchFile p)).
Proof.
  apply (check_failure demo_init demo_find demo_analyzer demo_glue
           demo_colour demo_colour demo_colour demo_colour
           (demo_opt false false "src" "" "dd") empty_world
           (demo_check (demo_opt false false "src" "" "dd") empty_world).2
           (NoSuchFile "src/a.tag")).
  by_computation.
Defined.

Lemma cli_dispatch_witness :
  demo_cli (demo_args false false false false [ArgNumber (Finite 0)])
           (λ _, []) demo_world
  = (Ok tt, set_out [help_text] demo_world)
  ∧ demo_cli (demo_args false false false false [ArgNumber (Finite 5)])
             (λ _, []) demo_world
    = (Throw TypeError, demo_world)
  ∧ demo_cli (demo_args false false false false [ArgString "src/a.tag"; ArgString "out"])
             (λ _, []) demo_world
    = (make demo_compile demo_cli_init demo_find demo_mirror demo_toRelative
            demo_dirname demo_ancestors
            {| compiler := demo_options false false; ext := "";
               from := "src/a.tag"; to := "out"; flow := "" |} ;;
       ret tt) demo_world
  ∧ demo_cli (demo_args false false true true [ArgString "src"])
             (λ _, [Ready]) demo_world
    = (watch demo_compile demo_cli_init demo_find demo_mirror demo_toRelative
             demo_dirname demo_ancestors demo_join
             {| compiler := demo_options false false; ext := "";
                from := "src"; to := ""; flow := "" |} (λ _, [Ready]) ;;
       ret tt) demo_world.
Proof.
  split_and!.
  - exact (cli_dispatch demo_compile demo_cli_init demo_find demo_mirror
             demo_toRelative demo_dirname demo_ancestors demo_analyzer demo_glue
             demo_colour demo_colour demo_colour demo_colour demo_version demo_join
             (λ _ _ _, throw TypeError)
             (demo_args false false false false [ArgNumber (Finite 0)])
             (λ _, []) demo_world).
  - exact (cli_dispatch demo_compile demo_cli_init demo_find demo_mirror
             demo_toRelative demo_dirname demo_ancestors demo_analyzer demo_glue
             demo_colour demo_colour demo_colour demo_colour demo_version demo_join
             (λ _ _ _, throw TypeError)
             (demo_args false false false false [ArgNumber (Finite 5)])
             (λ _, []) demo_world).
  - exact (cli_dispatch demo_compile demo_cli_init demo_find demo_mirror
             demo_toRelative demo_dirname demo_ancestors demo_analyzer demo_glue
             demo_colour demo_colour demo_colour demo_colour demo_version demo_join
             (λ _ _ _, throw TypeError)
             (demo_args false false false false [ArgString "src/a.tag"; ArgString "out"])
             (λ _, []) demo_world).
  - exact (cli_dispatch demo_compile demo_cli_init demo_find demo_mirror
             demo_toRelative demo_dirname demo_ancestors demo_analyzer demo_glue
             demo_colour demo_colour demo_colour demo_colour demo_version demo_join
             (λ _ _ _, throw TypeError)
             (demo_args false false true true [ArgString "src"])
             (λ _, [Ready]) demo_world).
Defined.
